(** * Verification of [intervention/controller.py]

    A shallow embedding of the waypoint-to-actuation pipeline of the
    driving-intervention controller: the turning-radius formula, the
    discrete PID controller with integral discounting, the waypoint
    interpolator and [VehicleController.step].

    Numbers.  Python floats and numpy float64 scalars are read as real
    numbers (type [R]); rounding, overflow and signed zeros are not
    modelled.  The non-finite values that the code itself produces are
    kept visible:
    - [math.inf], returned by [_turning_radius_to], is [PInf];
    - numpy's [0 / 0], produced by the interpolator on a zero-length
      segment, is the NaN point [None] and the NaN scalar [NaN];
    - a division of Python floats by zero raises [ZeroDivisionError].

    Arrays.  A waypoint array of shape (N, 2) is the list of its rows.
    [np.float] is the alias of Python's [float] that numpy offered when the
    module was written.  Numpy reports a division by zero with a warning,
    not with an exception.

    Effects.  A method that mutates [self] is a computation in a state and
    exception monad [M]; an exception leaves the state as it was when the
    exception was raised, as in Python. *)

From Stdlib Require Import Reals Lra Lia List String Bool ZArith.
Import ListNotations.
Open Scope R_scope.

(** ** Outcomes of Python code *)

Inductive py_exn : Type :=
| NameError
| UnboundLocalError
| ZeroDivisionError.

Inductive result (A : Type) : Type :=
| Ok (a : A)
| Raise (e : py_exn).

Arguments Ok {A} a.
Arguments Raise {A} e.

(** A computation over a mutable object of type [S]: it returns the object
    as it is afterwards together with a value or the exception raised. *)
Definition M (S A : Type) : Type := S -> S * result A.

Definition ret {S A : Type} (a : A) : M S A := fun s => (s, Ok a).

Definition raise {S A : Type} (e : py_exn) : M S A := fun s => (s, Raise e).

Definition bind {S A B : Type} (m : M S A) (k : A -> M S B) : M S B :=
  fun s =>
    match m s with
    | (s', Ok a) => k a s'
    | (s', Raise e) => (s', Raise e)
    end.

Definition get {S : Type} : M S S := fun s => (s, Ok s).

Definition put {S : Type} (s : S) : M S unit := fun _ => (s, Ok tt).

Declare Scope py_scope.
Delimit Scope py_scope with py.
Notation "x <- m ;; k" := (bind m (fun x => k))
  (at level 61, m at next level, right associativity) : py_scope.
Notation "m ;; k" := (bind m (fun _ => k))
  (at level 61, right associativity) : py_scope.
Open Scope py_scope.

(** Runs a computation that acts on a component of a larger object. *)
Definition zoom {S T A : Type} (proj : S -> T) (inj : S -> T -> S)
  (m : M T A) : M S A :=
  fun s => let (t', r) := m (proj s) in (inj s t', r).

(** [a / b] on Python floats.  (On numpy scalars a zero divisor gives inf or
    nan instead; the statements about the vehicle controller, whose PIDs
    also receive numpy scalars, are about controllers with a non-zero
    timestep.) *)
Definition pydiv {S : Type} (a b : R) : M S R :=
  if Req_dec_T b 0 then raise ZeroDivisionError else ret (a / b).

(** ** Scalars that may be non-finite *)

Inductive xreal : Type :=
| Fin (r : R)
| PInf
| NInf
| NaN.

(** Unary minus. *)
Definition xopp (a : xreal) : xreal :=
  match a with
  | Fin r => Fin (- r)
  | PInf => NInf
  | NInf => PInf
  | NaN => NaN
  end.

(** [np.clip(a, lo, hi)] on finite reals: [minimum(maximum(a, lo), hi)]. *)
Definition clip (a lo hi : R) : R := Rmin (Rmax a lo) hi.

(** [np.clip(a, lo, hi)] with finite bounds; NaN is propagated. *)
Definition xclip (a : xreal) (lo hi : R) : xreal :=
  match a with
  | Fin r => Fin (clip r lo hi)
  | PInf => Fin (clip hi lo hi)
  | NInf => Fin (clip lo lo hi)
  | NaN => NaN
  end.

(** [lo <= a <= hi] for a scalar that may be non-finite. *)
Definition xbetween (lo hi : R) (a : xreal) : Prop :=
  match a with
  | Fin r => lo <= r <= hi
  | _ => False
  end.

(** ** Geometry *)

(** [_turning_radius_to(x, y)] *)
Definition _turning_radius_to (x y : R) : xreal :=
  if Req_dec_T x 0 then PInf
  else
    let radius := (x ^ 2 + y ^ 2) / (2 * Rabs x) in
    Fin radius.

(** ** The PID controller *)

Module PidController.

Record t : Type := mk {
  _coef_proportional : R;
  _coef_integral : R;
  _coef_derivative : R;
  _integral_discounting : R;
  _dt : R;
  _previous_error : option R;
  _error_integral : R
}.

(** [PidController.__init__] *)
Definition init (unit_time_per_step proportional integral derivative
    integral_discounting_per_step : R) : t :=
  {| _coef_proportional := proportional;
     _coef_integral := integral;
     _coef_derivative := derivative;
     _integral_discounting := integral_discounting_per_step;
     _dt := unit_time_per_step;
     _previous_error := None;
     _error_integral := 0 |}.

(** The two assignments of the [if update:] block. *)
Definition commit (self : t) (error error_integral : R) : t :=
  {| _coef_proportional := _coef_proportional self;
     _coef_integral := _coef_integral self;
     _coef_derivative := _coef_derivative self;
     _integral_discounting := _integral_discounting self;
     _dt := _dt self;
     _previous_error := Some error;
     _error_integral := error_integral |}.

(** [PidController.step(error, update)] *)
Definition step (error : R) (update : bool) : M t R :=
  self <- get ;;
  let error_integral := _error_integral self in
  let error_integral := error_integral * (1 - _integral_discounting self) in
  let error_integral := error_integral + error * _dt self in
  derivative <-
    match _previous_error self with
    | Some previous_error => pydiv (error - previous_error) (_dt self)
    | None => ret 0
    end ;;
  let control := 0 in
  let control := control + _coef_proportional self * error in
  let control := control + _coef_integral self * _error_integral self in
  let control := control + _coef_derivative self * derivative in
  (if update then put (commit self error error_integral) else ret tt) ;;
  ret control.

End PidController.

(** ** The waypoint interpolator *)

Definition point : Type := (R * R)%type.

(** Difference of two rows of an array. *)
Definition psub (a b : point) : point := (fst a - fst b, snd a - snd b).

(** [np.linalg.norm] of a row. *)
Definition norm (v : point) : R := sqrt (fst v ^ 2 + snd v ^ 2).

(** The two statements
    [unit = direction / dist] and
    [[x, y] = (cur_pos + unit * (meters - total_dist)).tolist()].
    At both places where the function uses them [dist] is the norm of
    [direction], so a zero [dist] divides the zero vector: numpy gives NaN in
    both coordinates (with a warning, not an exception), and NaN stays NaN
    under the multiplication and the addition.  [None] is that NaN point. *)
Definition offset_along (cur_pos direction : point) (dist along : R)
  : option point :=
  if Req_dec_T dist 0 then None
  else
    let unit := (fst direction / dist, snd direction / dist) in
    Some (fst cur_pos + fst unit * along, snd cur_pos + snd unit * along).

(** The [for] loop of [_interpolate_waypoint_n_meters_ahead] followed by the
    statements after it.  [dist] is [None] as long as the loop body has not
    assigned the variable. *)
Fixpoint walk (waypoints : list point) (meters total_dist : R)
    (prev_pos cur_pos : point) (dist : option R) : result (option point) :=
  match waypoints with
  | waypoint :: rest =>
      let dist := norm (psub waypoint cur_pos) in
      if Rge_dec (total_dist + dist) meters then
        Ok (offset_along cur_pos (psub waypoint cur_pos) dist
              (meters - total_dist))
      else
        walk rest meters (total_dist + dist) cur_pos waypoint (Some dist)
  | [] =>
      match dist with
      | Some dist =>
          Ok (offset_along cur_pos (psub cur_pos prev_pos) dist
                (meters - total_dist))
      | None => Raise UnboundLocalError
      end
  end.

(** [_interpolate_waypoint_n_meters_ahead(waypoints, meters)] *)
Definition _interpolate_waypoint_n_meters_ahead (waypoints : list point)
    (meters : R) : result (option point) :=
  let total_dist := 0 in
  let prev_pos := (0, 0) in
  let cur_pos := (0, 0) in
  walk waypoints meters total_dist prev_pos cur_pos None.

(** ** Names visible in the module *)

(** The names that [controller.py] binds at module level: its imports and
    its definitions. *)
Definition module_globals : list string :=
  [ "math"; "List"; "Tuple"; "np"; "carla"; "physics"; "TickState";
    "_least_square_circle_fit"; "_project_point_on_circle";
    "_turning_radius_to"; "_unit_vector"; "_angle_between";
    "PidController"; "_interpolate_waypoint_n_meters_ahead";
    "VehicleController" ]%string.

(** The builtins the module refers to. *)
Definition builtins : list string :=
  [ "abs"; "float"; "isinstance"; "len"; "max"; "print" ]%string.

(** A global name resolves in the module's names, then in the builtins.
    [injected] holds the names that other code has bound in the module
    after its import (an importer may assign [controller.name = ...]); the
    module on its own has none. *)
Definition resolves (injected : list string) (name : string) : bool :=
  existsb (String.eqb name) (module_globals ++ injected)
  || existsb (String.eqb name) builtins.

(** Reading a global name: [NameError] when it does not resolve. *)
Definition lookup_global {S : Type} (injected : list string) (name : string)
  : M S unit :=
  if resolves injected name then ret tt else raise NameError.

(** Lifts a function without side effects into a computation. *)
Definition call {S A : Type} (r : result A) : M S A := fun s => (s, r).

(** ** The vehicle controller *)

(** [TickState], as far as the controller reads it. *)
Record TickState : Type := { speed : R }.

(** [carla.VehicleControl(throttle=..., steer=..., brake=...)] *)
Record VehicleControl : Type := {
  throttle : R;
  steer : xreal;
  brake : R
}.

(** Modelled from the spec: the module [physics] with its class
    [KinematicBicycle] is missing.  The controller uses one capability of
    it, the conversion of a turning radius into a steering angle, a function
    injected at construction. *)
Record KinematicBicycle : Type := {
  turning_radius_to_steering_angle : xreal -> xreal
}.

(** [np.mean] of a one-dimensional array. *)
Definition mean (xs : list R) : R :=
  fold_right Rplus 0 xs / INR (List.length xs).

(** [waypoints[..., [1, 0]]] on one row. *)
Definition swap_xy (p : point) : point := (snd p, fst p).

Module VehicleController.

Record t : Type := mk {
  _waypoint_step_gap : Z;
  _dt : R;
  _kinematic_bicycle : KinematicBicycle;
  _speed_control : PidController.t;
  _brake_control : PidController.t
}.

(** [VehicleController.__init__]; the kinematic bicycle is passed as
    built from the vehicle geometry. *)
Definition init (kinematic_bicycle : KinematicBicycle)
    (waypoint_step_gap : Z) (unit_time_per_step : R) : t :=
  {| _waypoint_step_gap := waypoint_step_gap;
     _dt := unit_time_per_step;
     _kinematic_bicycle := kinematic_bicycle;
     _speed_control :=
       PidController.init unit_time_per_step 0.5 0.05 0.02 0;
     _brake_control :=
       PidController.init unit_time_per_step 0.5 0.05 0.02 0 |}.

Definition set_speed_control (self : t) (pid : PidController.t) : t :=
  {| _waypoint_step_gap := _waypoint_step_gap self;
     _dt := _dt self;
     _kinematic_bicycle := _kinematic_bicycle self;
     _speed_control := pid;
     _brake_control := _brake_control self |}.

Definition set_brake_control (self : t) (pid : PidController.t) : t :=
  {| _waypoint_step_gap := _waypoint_step_gap self;
     _dt := _dt self;
     _kinematic_bicycle := _kinematic_bicycle self;
     _speed_control := _speed_control self;
     _brake_control := pid |}.

(** [self._speed_control.step(...)] and [self._brake_control.step(...)] *)
Definition speed_control_step (error : R) (update : bool) : M t R :=
  zoom _speed_control set_speed_control (PidController.step error update).

Definition brake_control_step (error : R) (update : bool) : M t R :=
  zoom _brake_control set_brake_control (PidController.step error update).

(** [deltas[:3].mean() / (self._waypoint_step_gap * self._dt)], from the
    waypoints with their columns already swapped. *)
Definition target_speed_of (self : t) (waypoints : list point) : R :=
  let targets := (0, 0) :: waypoints in
  let deltas :=
    map (fun p => norm (psub (fst p) (snd p)))
        (combine (removelast targets) (tl targets)) in
  mean (firstn 3 deltas) / (IZR (_waypoint_step_gap self) * _dt self).

(** [VehicleController.step(state, waypoints, update_pids)], run in the
    module with the names in [injected] bound in addition to its own; the
    only global name the method reads that the module does not bind itself
    is [logger].  The two [print] calls write
    to the standard output and are left out. *)
Definition step (injected : list string) (state : TickState)
    (waypoints : list point) (update_pids : bool) : M t VehicleControl :=
  self <- get ;;
  let waypoints := map swap_xy waypoints in
  let target_speed := target_speed_of self waypoints in
  let acceleration := target_speed - speed state in
  lookup_global injected "logger" ;;
  xy <- call (_interpolate_waypoint_n_meters_ahead waypoints 5.0) ;;
  let radius :=
    match xy with
    | Some (x, y) => _turning_radius_to x y
    | None => NaN
    end in
  let steering_angle :=
    turning_radius_to_steering_angle (_kinematic_bicycle self) radius in
  let steering_angle :=
    match xy with
    | Some (x, _) =>
        if Rlt_dec x 0.0 then xopp steering_angle else steering_angle
    | None => steering_angle
    end in
  actuation <-
    (if Rlt_dec (target_speed * 60.0 * 60.0 / 1000.0) 3.5 then
       let throttle := 0.0 in
       let steering_angle := Fin 0.0 in
       brake <- brake_control_step (speed state) update_pids ;;
       let brake := Rmax brake 0.05 in
       ret (throttle, steering_angle, brake)
     else
       throttle <- speed_control_step acceleration update_pids ;;
       brake <- brake_control_step (- acceleration) update_pids ;;
       ret (throttle, steering_angle, brake)) ;;
  let '(throttle, steering_angle, brake) := actuation in
  let throttle := clip throttle 0.0 1.0 in
  let brake := clip brake 0.0 1.0 in
  let steering := xclip steering_angle (-1.0) 1.0 in
  ret {| throttle := throttle; steer := steering_angle; brake := brake |}.

End VehicleController.

(** ** Geometry on planar vectors *)

(** The remaining geometry helpers of the module take numpy arrays; they
    are modelled on the arrays of shape (2,) that the module works with,
    points and vectors of the plane. *)

(** [np.dot] of two vectors. *)
Definition dot (a b : point) : R := fst a * fst b + snd a * snd b.

(** [vector / np.linalg.norm(vector)].  The norm is zero for the zero vector
    only, where numpy gives NaN in both coordinates: [None]. *)
Definition over_norm (vector : point) : option point :=
  let n := norm vector in
  if Req_dec_T n 0 then None else Some (fst vector / n, snd vector / n).

(** [_unit_vector(vector)] *)
Definition _unit_vector (vector : point) : option point := over_norm vector.

(** [_angle_between(vector1, vector2)].  A NaN unit vector makes the dot
    product, its clipped value and the arc cosine NaN; the assertion
    on the type of the result holds for vectors. *)
Definition _angle_between (vector1 vector2 : point) : xreal :=
  let v1_u := _unit_vector vector1 in
  let v2_u := _unit_vector vector2 in
  match v1_u, v2_u with
  | Some v1_u, Some v2_u => Fin (acos (clip (dot v1_u v2_u) (-1.0) 1.0))
  | _, _ => NaN
  end.

(** [_project_point_on_circle(point, circle_origin, circle_radius)]; the
    first parameter is [pt] here, [point] being the type. *)
Definition _project_point_on_circle (pt circle_origin : point)
    (circle_radius : R) : option point :=
  let direction := psub pt circle_origin in
  match over_norm direction with
  | Some unit =>
      let point_on_circle :=
        (fst circle_origin + fst unit * circle_radius,
         snd circle_origin + snd unit * circle_radius) in
      Some point_on_circle
  | None => None
  end.

(** ** The least-squares circle fit *)

(** A value, or numpy's [LinAlgError]. *)
Inductive np_result (A : Type) : Type :=
| Returned (a : A)
| LinAlgError.

Arguments Returned {A} a.
Arguments LinAlgError {A}.

(** [np.sum] of a one-dimensional array. *)
Definition np_sum (xs : list R) : R := fold_right Rplus 0 xs.

(** [xs * ys] on two arrays of the same length. *)
Definition times (xs ys : list R) : list R :=
  map (fun p => fst p * snd p) (combine xs ys).

(** [np.linalg.solve] on the system [[a11, a12], [a21, a22]] x = [b1, b2],
    in exact arithmetic: [LinAlgError] for a singular matrix, the unique
    solution otherwise. *)
Definition solve2 (a11 a12 a21 a22 b1 b2 : R) : np_result (R * R) :=
  let det := a11 * a22 - a12 * a21 in
  if Req_dec_T det 0 then LinAlgError
  else Returned ((b1 * a22 - a12 * b2) / det, (a11 * b2 - a21 * b1) / det).

(** [_least_square_circle_fit(points)], with the array of shape (N, 2) as
    the list of its rows. *)
Definition _least_square_circle_fit (points : list point)
  : np_result (point * R) :=
  let xs := map fst points in
  let ys := map snd points in
  let us := map (fun x => x - mean xs) xs in
  let vs := map (fun y => y - mean ys) ys in
  let Suu := np_sum (map (fun u => u ^ 2) us) in
  let Suv := np_sum (times us vs) in
  let Svv := np_sum (map (fun v => v ^ 2) vs) in
  let Suuu := np_sum (map (fun u => u ^ 3) us) in
  let Suvv := np_sum (times (times us vs) vs) in
  let Svvv := np_sum (map (fun v => v ^ 3) vs) in
  let Svuu := np_sum (times (times vs us) us) in
  let b1 := 1 / 2.0 * Suuu + 1 / 2.0 * Suvv in
  let b2 := 1 / 2.0 * Svvv + 1 / 2.0 * Svuu in
  match solve2 Suu Suv Suv Svv b1 b2 with
  | LinAlgError => LinAlgError
  | Returned (cx, cy) =>
      let r := sqrt (cx * cx + cy * cy + (Suu + Svv) / INR (List.length xs)) in
      let cx := cx + mean xs in
      let cy := cy + mean ys in
      Returned ((cx, cy), r)
  end.

(** * Notions used in the statements *)

Module PidSpec.
Import PidController.

(** The derivative term of a step, when the division is defined. *)
Definition derivative_term (self : t) (error : R) : R :=
  match _previous_error self with
  | Some previous_error => (error - previous_error) / _dt self
  | None => 0
  end.

(** The output built from the integral as stored before the step. *)
Definition lagged_output (self : t) (error : R) : R :=
  _coef_proportional self * error
  + _coef_integral self * _error_integral self
  + _coef_derivative self * derivative_term self error.

(** The integral that an updating step stores. *)
Definition candidate_integral (self : t) (error : R) : R :=
  _error_integral self * (1 - _integral_discounting self)
  + error * _dt self.

(** The derivative of a step is defined: the timestep it divides by is not
    zero, or there is no previous error and nothing is divided. *)
Definition divides (self : t) : Prop :=
  _dt self <> 0 \/ _previous_error self = None.

(** A controller after a sequence of calls [step(error, update)], each
    started where the previous one ended (a call that raises leaves the
    state to the next one as it is). *)
Fixpoint after (history : list (R * bool)) (self : t) : t :=
  match history with
  | [] => self
  | (error, update) :: rest => after rest (fst (step error update self))
  end.

End PidSpec.

Module InterpolationSpec.

(** Length of the polyline that starts at [cur_pos] and visits the
    waypoints in order. *)
Fixpoint path_length (cur_pos : point) (waypoints : list point) : R :=
  match waypoints with
  | [] => 0
  | waypoint :: rest => norm (psub waypoint cur_pos) + path_length waypoint rest
  end.

(** The two ends of the last segment of that polyline. *)
Fixpoint final_segment (prev_pos cur_pos : point) (waypoints : list point)
  : point * point :=
  match waypoints with
  | [] => (prev_pos, cur_pos)
  | waypoint :: rest => final_segment cur_pos waypoint rest
  end.

Definition origin : point := (0, 0).

Definition total_length (waypoints : list point) : R :=
  path_length origin waypoints.

Definition before_last (waypoints : list point) : point :=
  fst (final_segment origin origin waypoints).

Definition last_waypoint (waypoints : list point) : point :=
  snd (final_segment origin origin waypoints).

(** The point at distance [beyond] after [b] on the ray from [a]
    through [b]. *)
Definition extrapolate (a b : point) (beyond : R) : point :=
  (fst b + fst (psub b a) / norm (psub b a) * beyond,
   snd b + snd (psub b a) / norm (psub b a) * beyond).

End InterpolationSpec.

Module VehicleSpec.
Import VehicleController.

(** The name [logger] resolves. *)
Definition logger_bound (injected : list string) : Prop :=
  resolves injected "logger" = true.

(** A [logger] bound in the module from outside. *)
Definition with_logger : list string := [ "logger"%string ].

(** The divisor of the target speed is not zero.  With a zero divisor
    numpy computes inf or nan, which [target_speed_of] does not carry. *)
Definition finite_target_speed (self : t) : Prop :=
  IZR (_waypoint_step_gap self) * _dt self <> 0.

(** A controller as [__init__] builds it and [step] keeps it: both PIDs
    run on the controller's timestep, and neither the timestep nor the step
    gap is zero. *)
Definition well_configured (self : t) : Prop :=
  finite_target_speed self
  /\ PidController._dt (_speed_control self) = _dt self
  /\ PidController._dt (_brake_control self) = _dt self.

(** A well-configured controller computes a target speed below the
    3.5 km/h threshold. *)
Definition near_stop (self : t) (waypoints : list point) : Prop :=
  well_configured self
  /\ target_speed_of self (map swap_xy waypoints) * 60.0 * 60.0 / 1000.0
     < 3.5.

(** The steering angle of a step before the near-stop override, from the
    interpolated point. *)
Definition steering_target (self : t) (xy : option point) : xreal :=
  match xy with
  | Some (x, y) =>
      let steering_angle :=
        turning_radius_to_steering_angle (_kinematic_bicycle self)
          (_turning_radius_to x y) in
      if Rlt_dec x 0.0 then xopp steering_angle else steering_angle
  | None =>
      turning_radius_to_steering_angle (_kinematic_bicycle self) NaN
  end.

(** An instance of the injected conversion for concrete runs: the
    kinematic bicycle with steering angle [atan (wheelbase / radius)],
    for the radii that [_turning_radius_to] returns (positive, infinite
    or NaN). *)
Definition bicycle (wheelbase : R) : KinematicBicycle :=
  {| turning_radius_to_steering_angle := fun radius =>
       match radius with
       | Fin r => Fin (atan (wheelbase / r))
       | PInf | NInf => Fin 0
       | NaN => NaN
       end |}.

(** A freshly constructed controller with the default step gap and
    timestep. *)
Definition fresh_controller : t := init (bicycle 3) 5 0.1.

End VehicleSpec.

Module GeometrySpec.

(** The vector [k * v]. *)
Definition scale (k : R) (v : point) : point := (k * fst v, k * snd v).

(** The points lie on one line [alpha * x + beta * y = gamma]. *)
Definition collinear (points : list point) : Prop :=
  exists alpha beta gamma : R,
    (alpha <> 0 \/ beta <> 0)
    /\ forall p : point, In p points -> alpha * fst p + beta * snd p = gamma.

(** The point lies on the circle around [center] with radius [radius]. *)
Definition on_circle (center : point) (radius : R) (p : point) : Prop :=
  (fst p - fst center) ^ 2 + (snd p - snd center) ^ 2 = radius ^ 2.

(** The sum of [f u v] over the points, [u] and [v] being the offsets of a
    point from the means of the coordinates. *)
Definition centred_sum (f : R -> R -> R) (points : list point) : R :=
  np_sum
    (map (fun p : point => f (fst p - mean (map fst points))
                             (snd p - mean (map snd points)))
         points).

(** The determinant of the matrix of second moments that the fit solves
    with. *)
Definition moment_determinant (points : list point) : R :=
  centred_sum (fun u _ => u ^ 2) points
  * centred_sum (fun _ v => v ^ 2) points
  - centred_sum (fun u v => u * v) points
    * centred_sum (fun u v => u * v) points.


End GeometrySpec.

Module PidHistorySpec.
Import PidController.

(** The calls [step(error)] with the default [update=True], one per error,
    oldest first. *)
Definition committing (errors : list R) : list (R * bool) :=
  map (fun error => (error, true)) errors.

(** The calls of a history that update the controller. *)
Definition committed (history : list (R * bool)) : list (R * bool) :=
  filter (fun call => snd call) history.

(** The errors, oldest first, each weighted by [1 - discounting] to the
    number of errors that came after it. *)
Fixpoint discounted_sum (discounting : R) (errors : list R) : R :=
  match errors with
  | [] => 0
  | error :: rest =>
      error * (1 - discounting) ^ List.length rest
      + discounted_sum discounting rest
  end.

(** Every error of the history is at most [bound] in absolute value. *)
Definition errors_within (bound : R) (history : list (R * bool)) : Prop :=
  Forall (fun call => Rabs (fst call) <= bound) history.

End PidHistorySpec.

Module PathSpec.

(** The point at distance [s] from [a] on the way to [b]. *)
Definition towards (a b : point) (s : R) : point :=
  (fst a + fst (psub b a) / norm (psub b a) * s,
   snd a + snd (psub b a) / norm (psub b a) * s).

(** No waypoint repeats the position before it: every segment of the
    polyline that starts at [cur_pos] has a length. *)
Fixpoint distinct_steps (cur_pos : point) (waypoints : list point) : Prop :=
  match waypoints with
  | [] => True
  | waypoint :: rest => waypoint <> cur_pos /\ distinct_steps waypoint rest
  end.

End PathSpec.

Module DrivingSpec.
Import VehicleController VehicleSpec.

(** The target speed in km/h, which a call compares with the threshold. *)
Definition target_kmh (self : t) (waypoints : list point) : R :=
  target_speed_of self (map swap_xy waypoints) * 60.0 * 60.0 / 1000.0.

(** The controller after a sequence of calls
    [step(state, waypoints, update_pids)], each started where the previous
    one ended, whether it returned or raised. *)
Fixpoint after_calls (injected : list string)
    (calls : list (TickState * list point * bool)) (self : t) : t :=
  match calls with
  | [] => self
  | (state, waypoints, update_pids) :: rest =>
      after_calls injected rest
        (fst (step injected state waypoints update_pids self))
  end.

(** Two PID controllers with the same parameters whose stored errors and
    integrals are opposite. *)
Definition mirrored (a b : PidController.t) : Prop :=
  PidController._coef_proportional b = PidController._coef_proportional a
  /\ PidController._coef_integral b = PidController._coef_integral a
  /\ PidController._coef_derivative b = PidController._coef_derivative a
  /\ PidController._integral_discounting b
     = PidController._integral_discounting a
  /\ PidController._dt b = PidController._dt a
  /\ PidController._previous_error b
     = option_map Ropp (PidController._previous_error a)
  /\ PidController._error_integral b = - PidController._error_integral a.

(** Every waypoint [[forward, lateral]] has lateral coordinate zero. *)
Definition straight_ahead (waypoints : list point) : Prop :=
  Forall (fun waypoint => snd waypoint = 0) waypoints.

(** The waypoint [[forward, lateral]] on the other side. *)
Definition mirror (waypoint : point) : point :=
  (fst waypoint, - snd waypoint).

(** The same reflection on a row with its columns swapped,
    [[lateral, forward]]. *)
Definition flip (p : point) : point := (- fst p, snd p).

(** The actuation with the steering to the other side. *)
Definition reverse_steer (out : VehicleControl) : VehicleControl :=
  {| throttle := throttle out;
     steer := xopp (steer out);
     brake := brake out |}.

End DrivingSpec.

(** * Properties *)

(** ** Turning radius *)

Lemma turning_radius_zero (y : R) : _turning_radius_to 0 y = PInf.
Proof.
  unfold _turning_radius_to.
  destruct (Req_dec_T 0 0) as [_ | H]; [reflexivity | now elim H].
Qed.

Lemma turning_radius_nonzero (x y : R) :
  x <> 0 -> _turning_radius_to x y = Fin ((x ^ 2 + y ^ 2) / (2 * Rabs x)).
Proof.
  intros Hx. unfold _turning_radius_to.
  destruct (Req_dec_T x 0) as [H | _]; [now elim Hx | reflexivity].
Qed.

(** C7: the turning radius is the same for a lateral offset and its
    opposite, it is plus infinity for a zero offset, and it takes the values
    0.5 at (1, 0) and 1.0 at (1, 1). *)
Theorem turning_radius_symmetric_and_values (x y : R) :
  _turning_radius_to x y = _turning_radius_to (- x) y
  /\ _turning_radius_to 0 y = PInf
  /\ _turning_radius_to 1 0 = Fin 0.5
  /\ _turning_radius_to 1 1 = Fin 1.0.
Proof.
  repeat split.
  - destruct (Req_dec_T x 0) as [Hz | Hnz].
    + subst x. rewrite Ropp_0. reflexivity.
    + rewrite !turning_radius_nonzero by lra.
      rewrite Rabs_Ropp. f_equal. f_equal. ring.
  - apply turning_radius_zero.
  - rewrite turning_radius_nonzero by lra.
    rewrite Rabs_R1. f_equal. lra.
  - rewrite turning_radius_nonzero by lra.
    rewrite Rabs_R1. f_equal. lra.
Qed.

(** ** The PID controller *)

Module PidFacts.
Import PidController PidSpec.

Lemma step_defined (self : t) (error : R) (update : bool) :
  divides self ->
  step error update self =
    ((if update then commit self error (candidate_integral self error)
      else self),
     Ok (lagged_output self error)).
Proof.
  intros Hd.
  unfold step, bind, get, pydiv, lagged_output, derivative_term,
    candidate_integral.
  destruct (_previous_error self) as [previous_error | ] eqn:Hprev.
  - destruct (Req_dec_T (_dt self) 0) as [Hz | Hnz].
    + destruct Hd as [Hd | Hd]; [now elim Hd | congruence].
    + destruct update; unfold ret, put; simpl;
        (apply f_equal2; [reflexivity | f_equal; ring]).
  - destruct update; unfold ret, put; simpl;
      (apply f_equal2; [reflexivity | f_equal; ring]).
Qed.

Lemma step_raises (self : t) (error : R) (update : bool) :
  ~ divides self ->
  step error update self = (self, Raise ZeroDivisionError).
Proof.
  intros Hd.
  unfold step, bind, get, pydiv.
  destruct (_previous_error self) as [previous_error | ] eqn:Hprev.
  - destruct (Req_dec_T (_dt self) 0) as [Hz | Hnz].
    + reflexivity.
    + elim Hd. now left.
  - elim Hd. now right.
Qed.

Lemma divides_dec (self : t) : divides self \/ ~ divides self.
Proof.
  unfold divides.
  destruct (Req_dec_T (_dt self) 0) as [Hz | Hnz]; [ | now left; left].
  destruct (_previous_error self); [right | now left; right].
  intros [H | H]; [now elim H | congruence].
Qed.

(** C1: in every state and for every error, the output that a step returns
    is [proportional * error + integral * stored integral
    + derivative * derivative term], with the integral as stored before the
    step, whether or not the step updates the state; and the step returns
    it whenever its derivative is defined. *)
Theorem step_output_uses_stored_integral
    (self : t) (error : R) (update : bool) :
  (forall control : R,
      snd (step error update self) = Ok control ->
      control = lagged_output self error)
  /\ (divides self ->
      snd (step error update self) = Ok (lagged_output self error)).
Proof.
  split.
  - intros control Hreturns.
    destruct (divides_dec self) as [Hd | Hd].
    + rewrite step_defined in Hreturns by assumption.
      cbn [snd] in Hreturns. congruence.
    + rewrite step_raises in Hreturns by assumption. discriminate.
  - intros Hd. rewrite step_defined by assumption. reflexivity.
Qed.

(** The lag at work: the first output after construction has no integral
    part, and the second one carries the integral of the first error
    only. *)
Lemma first_output_without_integral
    (unit_time_per_step proportional integral derivative discounting : R)
    (error : R) (update : bool) :
  snd (step error update
         (init unit_time_per_step proportional integral derivative
            discounting))
  = Ok (proportional * error).
Proof.
  rewrite step_defined by (right; reflexivity).
  unfold lagged_output, derivative_term. simpl. f_equal. ring.
Qed.

Lemma second_output_with_first_integral
    (unit_time_per_step proportional integral derivative discounting : R)
    (error1 error2 : R) (update : bool) :
  unit_time_per_step <> 0 ->
  snd (step error2 update
         (fst (step error1 true
                 (init unit_time_per_step proportional integral derivative
                    discounting))))
  = Ok (proportional * error2
        + integral * (error1 * unit_time_per_step)
        + derivative * ((error2 - error1) / unit_time_per_step)).
Proof.
  intros Hdt.
  rewrite (step_defined (init _ _ _ _ _)) by (right; reflexivity).
  cbn [fst]. rewrite step_defined by (left; exact Hdt).
  unfold lagged_output, derivative_term, candidate_integral. simpl.
  f_equal. ring.
Qed.

(** C5: a step with [update = False] leaves the controller as it was, in
    particular its previous error and its error integral; a second such
    step with the same error returns what the first returned. *)
Theorem step_without_update_keeps_state (self : t) (error : R) :
  fst (step error false self) = self
  /\ _previous_error (fst (step error false self)) = _previous_error self
  /\ _error_integral (fst (step error false self)) = _error_integral self
  /\ snd (step error false (fst (step error false self)))
     = snd (step error false self).
Proof.
  assert (H : fst (step error false self) = self).
  { destruct (divides_dec self) as [Hd | Hd].
    - rewrite step_defined by assumption. reflexivity.
    - rewrite step_raises by assumption. reflexivity. }
  rewrite !H. repeat split; reflexivity.
Qed.

(** C10: the output of a step does not depend on the [update] flag. *)
Theorem step_output_independent_of_update (self : t) (error : R) :
  snd (step error true self) = snd (step error false self).
Proof.
  destruct (divides_dec self) as [Hd | Hd].
  - rewrite !step_defined by assumption. reflexivity.
  - rewrite !step_raises by assumption. reflexivity.
Qed.

(** What a step leaves alone: the coefficients, the discounting and the
    timestep. *)
Lemma step_keeps_parameters (self : t) (error : R) (update : bool) :
  let self' := fst (step error update self) in
  _coef_proportional self' = _coef_proportional self
  /\ _coef_integral self' = _coef_integral self
  /\ _coef_derivative self' = _coef_derivative self
  /\ _integral_discounting self' = _integral_discounting self
  /\ _dt self' = _dt self.
Proof.
  destruct (divides_dec self) as [Hd | Hd].
  - rewrite step_defined by assumption.
    destruct update; simpl; repeat split; reflexivity.
  - rewrite step_raises by assumption. simpl. repeat split; reflexivity.
Qed.

Lemma after_keeps_parameters (history : list (R * bool)) (self : t) :
  _integral_discounting (after history self) = _integral_discounting self
  /\ _dt (after history self) = _dt self.
Proof.
  revert self.
  induction history as [ | [error update] rest IH]; intros self; simpl.
  - split; reflexivity.
  - destruct (IH (fst (step error update self))) as [Hg Hdt].
    destruct (step_keeps_parameters self error update)
      as (_ & _ & _ & Hg' & Hdt').
    simpl in Hg', Hdt'. rewrite Hg, Hdt. split; assumption.
Qed.

Lemma memoryless_step (self : t) (error control : R) :
  _integral_discounting self = 1 ->
  snd (step error true self) = Ok control ->
  _error_integral (fst (step error true self)) = error * _dt self.
Proof.
  intros Hg Hok.
  destruct (divides_dec self) as [Hd | Hd].
  - rewrite step_defined by assumption. simpl.
    unfold candidate_integral. rewrite Hg. ring.
  - rewrite step_raises in Hok by assumption. discriminate.
Qed.

(** C9: for a controller constructed with an integral discounting of 1.0,
    whatever calls came before, a step that commits (it returns, and
    [update = True]) stores the error integral [error * dt]: the errors of
    the earlier calls do not contribute. *)
Theorem discounting_one_forgets_history
    (unit_time_per_step proportional integral derivative : R)
    (history : list (R * bool)) (error control : R)
    (Hreturns :
       snd (step error true
              (after history
                 (init unit_time_per_step proportional integral
                    derivative 1.0))) = Ok control) :
  _error_integral
    (fst (step error true
            (after history
               (init unit_time_per_step proportional integral
                  derivative 1.0))))
  = error * unit_time_per_step.
Proof.
  set (start := init unit_time_per_step proportional integral
                  derivative 1.0) in *.
  destruct (after_keeps_parameters history start) as [Hg Hdt].
  rewrite (memoryless_step _ error control); [ | | exact Hreturns].
  - rewrite Hdt. reflexivity.
  - rewrite Hg. simpl. lra.
Qed.

Lemma step_output_uses_stored_integral_witness :
  divides (commit (init 0.1 0.5 0.05 0.02 0) 1 0.1)
  /\ snd (step 3 true (commit (init 0.1 0.5 0.05 0.02 0) 1 0.1))
     = Ok (lagged_output (commit (init 0.1 0.5 0.05 0.02 0) 1 0.1) 3)
  /\ lagged_output (commit (init 0.1 0.5 0.05 0.02 0) 1 0.1) 3 = 1.905.
Proof.
  assert (Hd : divides (commit (init 0.1 0.5 0.05 0.02 0) 1 0.1))
    by (left; simpl; lra).
  split; [exact Hd | split].
  - exact (proj2 (step_output_uses_stored_integral _ 3 true) Hd).
  - unfold lagged_output, derivative_term. simpl. lra.
Defined.

Lemma discounting_one_forgets_history_witness :
  snd (step 3 true
         (after [(1, true); (2, false)] (init 0.1 0.5 0.05 0.02 1.0)))
  = Ok (lagged_output
          (after [(1, true); (2, false)] (init 0.1 0.5 0.05 0.02 1.0)) 3)
  /\ _error_integral
       (fst (step 3 true
               (after [(1, true); (2, false)]
                  (init 0.1 0.5 0.05 0.02 1.0))))
     = 3 * 0.1.
Proof.
  assert (H : snd (step 3 true
                     (after [(1, true); (2, false)]
                        (init 0.1 0.5 0.05 0.02 1.0)))
              = Ok (lagged_output
                      (after [(1, true); (2, false)]
                         (init 0.1 0.5 0.05 0.02 1.0)) 3)).
  { rewrite step_defined; [reflexivity | ]. left.
    destruct (after_keeps_parameters [(1, true); (2, false)]
                (init 0.1 0.5 0.05 0.02 1.0)) as [_ Hdt].
    rewrite Hdt. simpl. lra. }
  split; [exact H | ].
  exact (discounting_one_forgets_history 0.1 0.5 0.05 0.02
           [(1, true); (2, false)] 3 _ H).
Defined.

End PidFacts.

(** ** The waypoint interpolator *)

Module InterpolationFacts.
Import InterpolationSpec.

Lemma norm_nonneg (v : point) : 0 <= norm v.
Proof. apply sqrt_pos. Qed.

Lemma norm_sqr (v : point) : norm v * norm v = fst v ^ 2 + snd v ^ 2.
Proof.
  unfold norm. apply sqrt_sqrt.
  assert (0 <= fst v ^ 2) by apply pow2_ge_0.
  assert (0 <= snd v ^ 2) by apply pow2_ge_0.
  lra.
Qed.

Lemma norm_eq (v : point) (r : R) :
  0 <= r -> fst v ^ 2 + snd v ^ 2 = r * r -> norm v = r.
Proof.
  intros Hr Hv. unfold norm. rewrite Hv. apply sqrt_square. exact Hr.
Qed.

Lemma norm_zero (v : point) : norm v = 0 -> v = (0, 0).
Proof.
  intros H. pose proof (norm_sqr v) as Hs. rewrite H in Hs.
  assert (H1 : 0 <= fst v ^ 2) by apply pow2_ge_0.
  assert (H2 : 0 <= snd v ^ 2) by apply pow2_ge_0.
  assert (Hx : fst v ^ 2 = 0) by lra.
  assert (Hy : snd v ^ 2 = 0) by lra.
  destruct v as [x y]. simpl in *.
  f_equal; nra.
Qed.

Lemma norm_origin : norm (0, 0) = 0.
Proof.
  unfold norm. simpl.
  replace (0 * (0 * 1) + 0 * (0 * 1)) with 0 by ring.
  apply sqrt_0.
Qed.

Lemma psub_zero (a b : point) : psub a b = (0, 0) -> a = b.
Proof.
  destruct a as [ax ay], b as [bx by_]. unfold psub. simpl.
  intros H. injection H as Hx Hy. f_equal; lra.
Qed.

Lemma norm_psub_pos (a b : point) : a <> b -> 0 < norm (psub a b).
Proof.
  intros Hab.
  destruct (norm_nonneg (psub a b)) as [Hlt | Heq]; [exact Hlt | ].
  elim Hab. apply psub_zero, norm_zero. symmetry. exact Heq.
Qed.

Lemma path_length_nonneg (waypoints : list point) (cur_pos : point) :
  0 <= path_length cur_pos waypoints.
Proof.
  revert cur_pos.
  induction waypoints as [ | waypoint rest IH]; intros cur_pos; simpl.
  - lra.
  - pose proof (norm_nonneg (psub waypoint cur_pos)).
    pose proof (IH waypoint). lra.
Qed.

Lemma walk_cons (waypoint : point) (rest : list point)
    (meters total_dist : R) (prev_pos cur_pos : point) (dist : option R) :
  walk (waypoint :: rest) meters total_dist prev_pos cur_pos dist =
    if Rge_dec (total_dist + norm (psub waypoint cur_pos)) meters then
      Ok (offset_along cur_pos (psub waypoint cur_pos)
            (norm (psub waypoint cur_pos)) (meters - total_dist))
    else
      walk rest meters (total_dist + norm (psub waypoint cur_pos))
        cur_pos waypoint (Some (norm (psub waypoint cur_pos))).
Proof. reflexivity. Qed.

(** Beyond the end of the polyline the loop runs through all waypoints
    and the statements after it extend the last segment. *)
Lemma walk_beyond (rest : list point) :
  forall (waypoint : point) (meters total_dist : R)
         (prev_pos cur_pos : point) (dist : option R),
    total_dist + path_length cur_pos (waypoint :: rest) < meters ->
    walk (waypoint :: rest) meters total_dist prev_pos cur_pos dist =
      Ok (offset_along
            (snd (final_segment cur_pos waypoint rest))
            (psub (snd (final_segment cur_pos waypoint rest))
                  (fst (final_segment cur_pos waypoint rest)))
            (norm (psub (snd (final_segment cur_pos waypoint rest))
                        (fst (final_segment cur_pos waypoint rest))))
            (meters
             - (total_dist + path_length cur_pos (waypoint :: rest)))).
Proof.
  induction rest as [ | next rest IH];
    intros waypoint meters total_dist prev_pos cur_pos dist Hfar.
  - simpl in *.
    destruct (Rge_dec (total_dist + norm (psub waypoint cur_pos)) meters)
      as [Hge | _]; [lra | ].
    do 2 f_equal. ring.
  - rewrite walk_cons.
    pose proof (path_length_nonneg (next :: rest) waypoint) as Hrest.
    change (path_length cur_pos (waypoint :: next :: rest))
      with (norm (psub waypoint cur_pos)
            + path_length waypoint (next :: rest)) in *.
    destruct (Rge_dec (total_dist + norm (psub waypoint cur_pos)) meters)
      as [Hge | _]; [lra | ].
    rewrite IH by lra.
    change (final_segment cur_pos waypoint (next :: rest))
      with (final_segment waypoint next rest).
    do 2 f_equal. ring.
Qed.

Lemma offset_along_defined (cur_pos direction : point) (dist along : R) :
  dist <> 0 ->
  offset_along cur_pos direction dist along =
    Some (fst cur_pos + fst direction / dist * along,
          snd cur_pos + snd direction / dist * along).
Proof.
  intros Hd. unfold offset_along.
  destruct (Req_dec_T dist 0) as [Hz | _]; [now elim Hd | reflexivity].
Qed.

Lemma offset_along_nan (cur_pos direction : point) (along : R) :
  offset_along cur_pos direction 0 along = None.
Proof.
  unfold offset_along.
  destruct (Req_dec_T 0 0) as [_ | Hnz]; [reflexivity | now elim Hnz].
Qed.

(** A first waypoint at the origin and a distance that is not positive:
    the first segment is selected and has length zero. *)
Lemma interpolate_nan_at_start (rest : list point) (meters : R) :
  meters <= 0 ->
  _interpolate_waypoint_n_meters_ahead ((0, 0) :: rest) meters = Ok None.
Proof.
  intros Hm. unfold _interpolate_waypoint_n_meters_ahead. cbn [walk].
  replace (psub (0, 0) (0, 0)) with ((0, 0) : point)
    by (unfold psub; simpl; f_equal; ring).
  rewrite norm_origin.
  destruct (Rge_dec (0 + 0) meters) as [_ | Hlt]; [ | lra].
  now rewrite offset_along_nan.
Qed.

(** A last segment of length zero and a distance beyond the polyline. *)
Lemma interpolate_nan_beyond (waypoints : list point) (meters : R) :
  waypoints <> [] ->
  before_last waypoints = last_waypoint waypoints ->
  total_length waypoints < meters ->
  _interpolate_waypoint_n_meters_ahead waypoints meters = Ok None.
Proof.
  intros Hne Hseg Hfar.
  destruct waypoints as [ | waypoint rest]; [now elim Hne | ].
  unfold _interpolate_waypoint_n_meters_ahead.
  rewrite walk_beyond by (unfold total_length, origin in Hfar; lra).
  unfold before_last, last_waypoint, origin in Hseg.
  cbn [final_segment] in Hseg.
  rewrite Hseg.
  replace (psub _ _) with ((0, 0) : point)
    by (unfold psub; simpl; f_equal; ring).
  rewrite norm_origin. now rewrite offset_along_nan.
Qed.

(** Equality of two returned points, coordinate by coordinate. *)
Lemma returned_point_eq (x y x' y' : R) :
  x = x' -> y = y' ->
  @Ok (option point) (Some (x, y)) = Ok (Some (x', y')).
Proof. intros -> ->. reflexivity. Qed.

Lemma interpolate_beyond (waypoints : list point) (meters : R) :
  before_last waypoints <> last_waypoint waypoints ->
  total_length waypoints < meters ->
  _interpolate_waypoint_n_meters_ahead waypoints meters =
    Ok (Some (extrapolate (before_last waypoints) (last_waypoint waypoints)
                (meters - total_length waypoints))).
Proof.
  intros Hseg Hfar.
  destruct waypoints as [ | waypoint rest]; [now elim Hseg | ].
  unfold _interpolate_waypoint_n_meters_ahead.
  rewrite walk_beyond by (unfold total_length, origin in Hfar; lra).
  unfold before_last, last_waypoint, total_length, origin in *.
  cbn [final_segment] in *.
  rewrite offset_along_defined.
  - unfold extrapolate. apply returned_point_eq; ring.
  - apply Rgt_not_eq, Rlt_gt, norm_psub_pos.
    intros H. apply Hseg. symmetry. exact H.
Qed.

Lemma extrapolate_distance (a b : point) (beyond : R) :
  a <> b -> 0 <= beyond ->
  norm (psub (extrapolate a b beyond) b) = beyond.
Proof.
  intros Hab Hs.
  assert (Hpos : 0 < norm (psub b a))
    by (apply norm_psub_pos; intros H; apply Hab; symmetry; exact H).
  pose proof (norm_sqr (psub b a)) as Hn.
  set (n := norm (psub b a)) in *.
  destruct a as [ax ay], b as [bx by_].
  unfold extrapolate, psub, norm in *. simpl in *. fold n.
  apply sqrt_lem_1; [ | exact Hs | ].
  - rewrite !Rmult_1_r. apply Rplus_le_le_0_compat; apply Rle_0_sqr.
  - replace ((bx + (bx - ax) / n * beyond - bx)
             * ((bx + (bx - ax) / n * beyond - bx) * 1)
             + (by_ + (by_ - ay) / n * beyond - by_)
               * ((by_ + (by_ - ay) / n * beyond - by_) * 1))
      with (beyond * beyond
            * (((bx - ax) * ((bx - ax) * 1) + (by_ - ay) * ((by_ - ay) * 1))
               / (n * n)))
      by (field; lra).
    rewrite <- Hn. field. lra.
Qed.

Lemma extrapolate_direction (a b : point) (beyond : R) :
  a <> b -> 0 < beyond ->
  exists t : R,
    0 < t
    /\ psub (extrapolate a b beyond) b
       = (t * fst (psub b a), t * snd (psub b a)).
Proof.
  intros Hab Hs.
  assert (Hpos : 0 < norm (psub b a))
    by (apply norm_psub_pos; intros H; apply Hab; symmetry; exact H).
  exists (beyond / norm (psub b a)). split.
  - apply Rdiv_lt_0_compat; assumption.
  - unfold extrapolate, psub at 1. simpl. f_equal; field; lra.
Qed.

Lemma total_length_single (waypoint : point) :
  total_length [waypoint] = norm (psub waypoint origin).
Proof. unfold total_length. simpl. ring. Qed.

Lemma sqrt_200 (n : R) : 0 < n -> n * n = 0.18 -> 6 / n = sqrt 200.
Proof.
  intros Hpos Hn. symmetry. apply sqrt_lem_1.
  - lra.
  - apply Rlt_le, Rdiv_lt_0_compat; lra.
  - replace (6 / n * (6 / n)) with (36 / (n * n)) by (field; lra).
    rewrite Hn. lra.
Qed.

Lemma interpolate_test_case :
  _interpolate_waypoint_n_meters_ahead [(0.3, -0.3)] 20
  = Ok (Some (sqrt 200, - sqrt 200)).
Proof.
  assert (Hne : (0.3, -0.3) <> origin)
    by (unfold origin; intros H; injection H as H1 H2; lra).
  pose proof (norm_psub_pos _ _ Hne) as Hpos.
  pose proof (norm_sqr (psub (0.3, -0.3) origin)) as Hn.
  assert (Hn' : norm (psub (0.3, -0.3) origin)
                * norm (psub (0.3, -0.3) origin) = 0.18)
    by (rewrite Hn; unfold psub, origin; simpl; lra).
  assert (Hlt : norm (psub (0.3, -0.3) origin) < 20) by nra.
  rewrite interpolate_beyond.
  - rewrite total_length_single.
    unfold before_last, last_waypoint, extrapolate. cbn [final_segment fst snd].
    rewrite <- (sqrt_200 _ Hpos Hn').
    set (n := norm (psub (0.3, -0.3) origin)) in *.
    unfold psub, origin. cbn [fst snd].
    replace 0.3 with (3 / 10) by lra.
    replace (-0.3) with (- (3 / 10)) by lra.
    apply returned_point_eq; field; lra.
  - unfold before_last, last_waypoint. cbn [final_segment fst snd].
    intros H. apply Hne. symmetry. exact H.
  - rewrite total_length_single. exact Hlt.
Qed.

(** The cases of the repository's [test_waypoint_interpolation], which the
    embedding reproduces.  [walk_segment r] runs one iteration of the loop
    on a segment of length [r]. *)
Ltac walk_segment r :=
  rewrite walk_cons; unfold psub; cbn [fst snd];
  rewrite (norm_eq _ r); [ | lra | cbn [fst snd]; lra ];
  destruct (Rge_dec _ _); try lra.

Ltac returned_point :=
  first [ rewrite offset_along_defined by lra | cbn [walk] ];
  try (unfold psub; rewrite offset_along_defined by lra);
  cbn [fst snd]; apply returned_point_eq; lra.

Example test_interpolation_ahead :
  _interpolate_waypoint_n_meters_ahead [(0.5, 0)] 1.0 = Ok (Some (1.0, 0)).
Proof.
  unfold _interpolate_waypoint_n_meters_ahead.
  walk_segment 0.5. returned_point.
Qed.

Example test_interpolation_behind :
  _interpolate_waypoint_n_meters_ahead [(-0.5, 0)] 1.0 = Ok (Some (-1.0, 0)).
Proof.
  unfold _interpolate_waypoint_n_meters_ahead.
  walk_segment 0.5. returned_point.
Qed.

Example test_interpolation_second_segment :
  _interpolate_waypoint_n_meters_ahead [(0.5, 0); (1.5, 0)] 1.0
  = Ok (Some (1.0, 0)).
Proof.
  unfold _interpolate_waypoint_n_meters_ahead.
  walk_segment 0.5. walk_segment 1. returned_point.
Qed.

Example test_interpolation_turning_back :
  _interpolate_waypoint_n_meters_ahead [(-0.5, 0); (10.0, 0)] 1.0
  = Ok (Some (0.0, 0)).
Proof.
  unfold _interpolate_waypoint_n_meters_ahead.
  walk_segment 0.5. walk_segment 10.5. returned_point.
Qed.

Example test_interpolation_corner :
  _interpolate_waypoint_n_meters_ahead [(0.5, 0); (0.5, 1.0)] 1.0
  = Ok (Some (0.5, 0.5)).
Proof.
  unfold _interpolate_waypoint_n_meters_ahead.
  walk_segment 0.5. walk_segment 1. returned_point.
Qed.

(** C6, amended: for every non-empty polyline whose last segment has
    non-zero length and every distance beyond the total length, the
    interpolator returns the point that lies on the ray of the last
    segment, past the last waypoint, at the remaining distance from it;
    for the single waypoint (0.3, -0.3) at distance 20 this is
    (sqrt 200, - sqrt 200). *)
Theorem extrapolation_beyond_last_waypoint
    (waypoints : list point) (meters : R)
    (Hne : waypoints <> [])
    (Hseg : before_last waypoints <> last_waypoint waypoints)
    (Hfar : total_length waypoints < meters) :
  let a := before_last waypoints in
  let b := last_waypoint waypoints in
  let beyond := meters - total_length waypoints in
  _interpolate_waypoint_n_meters_ahead waypoints meters
  = Ok (Some (extrapolate a b beyond))
  /\ norm (psub (extrapolate a b beyond) b) = beyond
  /\ (exists t : R,
        0 < t
        /\ psub (extrapolate a b beyond) b
           = (t * fst (psub b a), t * snd (psub b a)))
  /\ _interpolate_waypoint_n_meters_ahead [(0.3, -0.3)] 20
     = Ok (Some (sqrt 200, - sqrt 200)).
Proof.
  cbv zeta. repeat split.
  - apply interpolate_beyond; assumption.
  - apply extrapolate_distance; [assumption | lra].
  - apply extrapolate_direction; [assumption | lra].
  - apply interpolate_test_case.
Qed.

(** C6 as stated fails on the polyline with the single waypoint (0, 0) at
    distance 1: the last segment has no direction and the result is the
    NaN point. *)
Lemma extrapolation_zero_segment_counterexample :
  [origin] <> []
  /\ total_length [origin] < 1
  /\ _interpolate_waypoint_n_meters_ahead [origin] 1 = Ok None
  /\ ~ (exists p : point,
          _interpolate_waypoint_n_meters_ahead [origin] 1 = Ok (Some p)).
Proof.
  assert (Hlen : total_length [origin] < 1).
  { rewrite total_length_single.
    replace (psub origin origin) with ((0, 0) : point)
      by (unfold psub, origin; simpl; f_equal; ring).
    rewrite norm_origin. lra. }
  assert (Hnan : _interpolate_waypoint_n_meters_ahead [origin] 1 = Ok None)
    by (apply interpolate_nan_beyond;
        [discriminate | reflexivity | exact Hlen]).
  repeat split.
  - discriminate.
  - exact Hlen.
  - exact Hnan.
  - intros [p Hp]. rewrite Hnan in Hp. discriminate.
Qed.

(** C8, amended: for every polyline whose first waypoint is not the
    origin, interpolating at distance 0 returns the origin. *)
Theorem interpolation_at_zero_is_origin
    (waypoint : point) (rest : list point) (Hfirst : waypoint <> origin) :
  _interpolate_waypoint_n_meters_ahead (waypoint :: rest) 0
  = Ok (Some origin).
Proof.
  pose proof (norm_psub_pos _ _ Hfirst) as Hpos.
  unfold _interpolate_waypoint_n_meters_ahead. rewrite walk_cons.
  fold origin.
  destruct (Rge_dec (0 + norm (psub waypoint origin)) 0) as [_ | Hlt];
    [ | lra].
  rewrite offset_along_defined by lra.
  unfold origin in *. cbn [fst snd]. apply returned_point_eq; field; lra.
Qed.

(** C8 as stated fails on the polyline with the single waypoint (0, 0):
    the selected segment has length zero and the result is the NaN
    point, not the origin. *)
Lemma interpolation_at_zero_counterexample :
  [origin] <> []
  /\ _interpolate_waypoint_n_meters_ahead [origin] 0 = Ok None
  /\ _interpolate_waypoint_n_meters_ahead [origin] 0 <> Ok (Some origin).
Proof.
  assert (Hnan : _interpolate_waypoint_n_meters_ahead [origin] 0 = Ok None)
    by (apply interpolate_nan_at_start; lra).
  repeat split.
  - discriminate.
  - exact Hnan.
  - rewrite Hnan. discriminate.
Qed.

Lemma extrapolation_beyond_last_waypoint_witness :
  [(3, 4)] <> []
  /\ before_last [(3, 4)] <> last_waypoint [(3, 4)]
  /\ total_length [(3, 4)] < 10
  /\ _interpolate_waypoint_n_meters_ahead [(3, 4)] 10
     = Ok (Some (extrapolate (before_last [(3, 4)]) (last_waypoint [(3, 4)])
                   (10 - total_length [(3, 4)]))).
Proof.
  assert (Hne : [(3, 4)] <> ([] : list point)) by discriminate.
  assert (Hseg : before_last [(3, 4)] <> last_waypoint [(3, 4)]).
  { unfold before_last, last_waypoint, origin. cbn [final_segment fst snd].
    intros H. injection H as H1 H2. lra. }
  assert (Hfar : total_length [(3, 4)] < 10).
  { rewrite total_length_single.
    rewrite (norm_eq _ 5);
      [ lra | lra | unfold psub, origin; cbn [fst snd]; lra ]. }
  split; [exact Hne | ]. split; [exact Hseg | ]. split; [exact Hfar | ].
  exact (proj1 (extrapolation_beyond_last_waypoint [(3, 4)] 10
                  Hne Hseg Hfar)).
Defined.

Lemma interpolation_at_zero_is_origin_witness :
  (0.5, 0) <> origin
  /\ _interpolate_waypoint_n_meters_ahead [(0.5, 0); (1.5, 0)] 0
     = Ok (Some origin).
Proof.
  assert (Hfirst : (0.5, 0) <> origin)
    by (unfold origin; intros H; injection H as H1; lra).
  split; [exact Hfirst | ].
  exact (interpolation_at_zero_is_origin (0.5, 0) [(1.5, 0)] Hfirst).
Defined.

End InterpolationFacts.

(** ** The vehicle controller *)

Module VehicleFacts.
Import VehicleController VehicleSpec.

Lemma logger_unbound_in_module : resolves [] "logger" = false.
Proof. reflexivity. Qed.

Lemma with_logger_bound : logger_bound with_logger.
Proof. reflexivity. Qed.

(** Decides the comparisons that [clip], [Rmin] and [Rmax] make in the
    goal, innermost first, and leaves the linear arithmetic to [lra]. *)
Ltac clip_cases :=
  unfold xclip, clip, Rmin, Rmax;
  repeat match goal with
         | |- context [Rle_dec ?a ?b] =>
             lazymatch a with
             | context [Rle_dec _ _] => fail
             | _ => destruct (Rle_dec a b)
             end
         end;
  try f_equal; lra.

Lemma clip_between (a lo hi : R) : lo <= hi -> lo <= clip a lo hi <= hi.
Proof. intros H. clip_cases. Qed.

Lemma clip_floor (a : R) : clip (Rmax a 0.05) 0.0 1.0 = Rmin (Rmax a 0.05) 1.
Proof. clip_cases. Qed.

(** The loop of the interpolator returns as soon as there is a waypoint
    or [dist] has been assigned. *)
Lemma walk_returns (waypoints : list point) :
  forall (meters total_dist : R) (prev_pos cur_pos : point)
         (dist : option R),
    waypoints <> [] \/ dist <> None ->
    exists xy, walk waypoints meters total_dist prev_pos cur_pos dist = Ok xy.
Proof.
  induction waypoints as [ | waypoint rest IH];
    intros meters total_dist prev_pos cur_pos dist H.
  - destruct dist as [d | ]; simpl.
    + eexists. reflexivity.
    + destruct H as [H | H]; now elim H.
  - rewrite InterpolationFacts.walk_cons.
    destruct (Rge_dec _ meters).
    + eexists. reflexivity.
    + apply IH. right. discriminate.
Qed.

Lemma interpolate_returns (waypoints : list point) (meters : R) :
  waypoints <> [] ->
  exists xy, _interpolate_waypoint_n_meters_ahead waypoints meters = Ok xy.
Proof.
  intros H. unfold _interpolate_waypoint_n_meters_ahead.
  apply walk_returns. now left.
Qed.

(** The module as written has no [logger]: the call stops at the logging
    statement, before any controller is stepped. *)
Lemma step_without_logger (injected : list string) (state : TickState)
    (waypoints : list point) (update_pids : bool) (self : t) :
  ~ logger_bound injected ->
  step injected state waypoints update_pids self = (self, Raise NameError).
Proof.
  intros H. unfold logger_bound in H.
  unfold step, bind, get, lookup_global.
  destruct (resolves injected "logger");
    [now elim H | reflexivity].
Qed.

(** The near-stop branch. *)
Lemma step_near_stop (injected : list string) (state : TickState)
    (waypoints : list point) (update_pids : bool) (self : t)
    (xy : option point) (pid : PidController.t) (r : result R) :
  logger_bound injected ->
  _interpolate_waypoint_n_meters_ahead (map swap_xy waypoints) 5.0 = Ok xy ->
  target_speed_of self (map swap_xy waypoints) * 60.0 * 60.0 / 1000.0
    < 3.5 ->
  PidController.step (speed state) update_pids (_brake_control self)
    = (pid, r) ->
  step injected state waypoints update_pids self =
    (set_brake_control self pid,
     match r with
     | Ok b => Ok {| throttle := clip 0.0 0.0 1.0;
                     steer := Fin 0.0;
                     brake := clip (Rmax b 0.05) 0.0 1.0 |}
     | Raise e => Raise e
     end).
Proof.
  intros Hlog Hxy Hslow Hpid. unfold logger_bound in Hlog.
  unfold step, bind, get, lookup_global, call, brake_control_step, zoom.
  rewrite Hlog, Hxy. unfold ret at 1.
  destruct (Rlt_dec _ 3.5) as [_ | Hn]; [ | now elim Hn].
  rewrite Hpid. destruct r; reflexivity.
Qed.

(** The driving branch. *)
Lemma step_driving (injected : list string) (state : TickState)
    (waypoints : list point) (update_pids : bool) (self : t)
    (xy : option point) (pid_s pid_b : PidController.t) (t_out b_out : R) :
  let target_speed := target_speed_of self (map swap_xy waypoints) in
  let acceleration := target_speed - speed state in
  logger_bound injected ->
  _interpolate_waypoint_n_meters_ahead (map swap_xy waypoints) 5.0 = Ok xy ->
  ~ target_speed * 60.0 * 60.0 / 1000.0 < 3.5 ->
  PidController.step acceleration update_pids (_speed_control self)
    = (pid_s, Ok t_out) ->
  PidController.step (- acceleration) update_pids (_brake_control self)
    = (pid_b, Ok b_out) ->
  step injected state waypoints update_pids self =
    (set_brake_control (set_speed_control self pid_s) pid_b,
     Ok {| throttle := clip t_out 0.0 1.0;
           steer := steering_target self xy;
           brake := clip b_out 0.0 1.0 |}).
Proof.
  intros target_speed acceleration Hlog Hxy Hfast Hs Hb.
  unfold logger_bound in Hlog. subst target_speed acceleration.
  unfold step, bind, get, lookup_global, call, speed_control_step,
    brake_control_step, zoom.
  rewrite Hlog, Hxy. unfold ret at 1.
  destruct (Rlt_dec _ 3.5) as [Hn | _]; [now elim Hfast | ].
  rewrite Hs. cbn [_brake_control set_speed_control]. rewrite Hb.
  unfold ret, steering_target. destruct xy as [[x y] | ]; reflexivity.
Qed.

(** C4: in the module as written every call of [VehicleController.step]
    raises [NameError] at the logging statement and leaves the controller
    as it was; no actuation is returned. *)
Theorem step_raises_name_error (state : TickState)
    (waypoints : list point) (update_pids : bool) (self : t) :
  step [] state waypoints update_pids self
  = (self, Raise NameError).
Proof.
  apply step_without_logger. unfold logger_bound.
  rewrite logger_unbound_in_module. discriminate.
Qed.

Lemma well_configured_divides (self : t) :
  well_configured self ->
  PidSpec.divides (_speed_control self)
  /\ PidSpec.divides (_brake_control self).
Proof.
  intros (Hfin & Hs & Hb). unfold finite_target_speed in Hfin.
  assert (Hdt : _dt self <> 0) by (intros H; rewrite H in Hfin; lra).
  split; left; congruence.
Qed.

Lemma init_well_configured (kinematic_bicycle : KinematicBicycle)
    (waypoint_step_gap : Z) (unit_time_per_step : R) :
  waypoint_step_gap <> 0%Z ->
  unit_time_per_step <> 0 ->
  well_configured (init kinematic_bicycle waypoint_step_gap unit_time_per_step).
Proof.
  intros Hgap Hdt. repeat split.
  unfold finite_target_speed. cbn [_waypoint_step_gap _dt init].
  apply Rmult_integral_contrapositive_currified; [ | exact Hdt].
  intros H. apply Hgap. apply eq_IZR. exact H.
Qed.

Lemma pid_step_keeps_dt (pid : PidController.t) (error : R) (update : bool) :
  PidController._dt (fst (PidController.step error update pid))
  = PidController._dt pid.
Proof. apply (PidFacts.step_keeps_parameters pid error update). Qed.

(** A call, whatever its outcome, leaves a well-configured controller
    well-configured. *)
Lemma step_keeps_well_configured (injected : list string)
    (state : TickState) (waypoints : list point) (update_pids : bool)
    (self : t) :
  well_configured self ->
  well_configured (fst (step injected state waypoints update_pids self)).
Proof.
  intros (Hfin & Hs & Hb).
  unfold step, bind, get, lookup_global, call, speed_control_step,
    brake_control_step, zoom.
  destruct (resolves injected "logger");
    [ | repeat split; assumption].
  unfold ret at 1.
  destruct (_interpolate_waypoint_n_meters_ahead _ 5.0) as [xy | e];
    [ | repeat split; assumption].
  unfold ret at 1.
  destruct (Rlt_dec _ 3.5) as [Hslow | Hfast].
  - pose proof (pid_step_keeps_dt (_brake_control self) (speed state)
                  update_pids) as Hk.
    destruct (PidController.step (speed state) update_pids _)
      as [pid [b | e]]; cbn [fst] in *;
      (split; [exact Hfin | split; [exact Hs | cbn; congruence]]).
  - set (acceleration :=
           target_speed_of self (map swap_xy waypoints) - speed state).
    pose proof (pid_step_keeps_dt (_speed_control self) acceleration
                  update_pids) as Hks.
    pose proof (pid_step_keeps_dt (_brake_control self) (- acceleration)
                  update_pids) as Hkb.
    destruct (PidController.step acceleration update_pids _)
      as [pid_s [t_out | e]]; cbn [fst] in *.
    + cbn [_brake_control set_speed_control].
      destruct (PidController.step (- acceleration) update_pids _)
        as [pid_b [b_out | e]]; cbn [fst] in *;
        (split; [exact Hfin | split; cbn; congruence]).
    + split; [exact Hfin | split; cbn; congruence].
Qed.

(** With a [logger] bound and a non-empty waypoint sequence, a call on a
    well-configured controller returns an actuation. *)
Lemma step_returns (injected : list string) (state : TickState)
    (waypoints : list point) (update_pids : bool) (self : t) :
  logger_bound injected ->
  waypoints <> [] ->
  well_configured self ->
  exists (self' : t) (out : VehicleControl),
    step injected state waypoints update_pids self = (self', Ok out).
Proof.
  intros Hlog Hne Hwf.
  destruct (well_configured_divides self Hwf) as [Hs Hb].
  destruct (interpolate_returns (map swap_xy waypoints) 5.0) as [xy Hxy].
  { destruct waypoints; [now elim Hne | discriminate]. }
  destruct (Rlt_dec
              (target_speed_of self (map swap_xy waypoints)
               * 60.0 * 60.0 / 1000.0) 3.5) as [Hslow | Hfast].
  - do 2 eexists.
    rewrite (step_near_stop _ _ _ _ _ _ _ _ Hlog Hxy Hslow
               (PidFacts.step_defined _ _ _ Hb)).
    reflexivity.
  - do 2 eexists.
    apply (step_driving _ _ _ _ _ _ _ _ _ _ Hlog Hxy Hfast
             (PidFacts.step_defined _ _ _ Hs)
             (PidFacts.step_defined _ _ _ Hb)).
Qed.

(** C3, amended: whenever a call returns and the computed target speed is
    below the threshold, the returned throttle is 0, the returned steering
    is 0, and the returned brake is the output of the braking PID on the
    current speed, floored at 0.05 and then capped at 1 by the final
    clamp; so the brake lies between 0.05 and 1. *)
Theorem near_stop_actuation (injected : list string) (state : TickState)
    (waypoints : list point) (update_pids : bool) (self self' : t)
    (out : VehicleControl)
    (Hreturns :
       step injected state waypoints update_pids self = (self', Ok out))
    (Hslow : near_stop self waypoints) :
  throttle out = 0
  /\ steer out = Fin 0
  /\ exists pid_output : R,
       snd (PidController.step (speed state) update_pids
              (_brake_control self)) = Ok pid_output
       /\ brake out = Rmin (Rmax pid_output 0.05) 1
       /\ 0.05 <= brake out <= 1.
Proof.
  destruct Hslow as [_ Hslow].
  assert (Hlog : logger_bound injected).
  { unfold logger_bound.
    destruct (resolves injected "logger") eqn:Hb;
      [reflexivity | ].
    rewrite step_without_logger in Hreturns; [discriminate | ].
    unfold logger_bound. rewrite Hb. discriminate. }
  destruct (_interpolate_waypoint_n_meters_ahead (map swap_xy waypoints) 5.0)
    as [xy | e] eqn:Hxy.
  - destruct (PidController.step (speed state) update_pids
                (_brake_control self)) as [pid r] eqn:Hpid.
    rewrite (step_near_stop _ _ _ _ _ _ _ _ Hlog Hxy Hslow Hpid)
      in Hreturns.
    destruct r as [b | e]; [ | discriminate].
    injection Hreturns as _ <-. cbn [throttle steer brake snd].
    split; [ | split].
    + clip_cases.
    + f_equal. lra.
    + exists b. rewrite clip_floor. split; [reflexivity | ].
      split; [reflexivity | ].
      clip_cases.
  - exfalso. revert Hreturns. unfold logger_bound in Hlog.
    unfold step, bind, get, lookup_global, call.
    rewrite Hlog, Hxy. unfold ret at 1. discriminate.
Qed.

(** *** Concrete runs *)

Lemma fresh_pid_step (unit_time_per_step error : R) (update : bool) :
  let self := PidController.init unit_time_per_step 0.5 0.05 0.02 0 in
  PidController.step error update self
  = ((if update
      then PidController.commit self error
             (PidSpec.candidate_integral self error)
      else self),
     Ok (PidSpec.lagged_output self error)).
Proof. apply PidFacts.step_defined. right. reflexivity. Qed.

Lemma fresh_pid_output (unit_time_per_step error : R) :
  PidSpec.lagged_output
    (PidController.init unit_time_per_step 0.5 0.05 0.02 0) error
  = 0.5 * error.
Proof.
  unfold PidSpec.lagged_output, PidSpec.derivative_term. simpl. lra.
Qed.

(** One waypoint a quarter of a unit ahead: target speed 0.5, that is
    1.8 km/h. *)
Lemma slow_target_speed :
  target_speed_of fresh_controller (map swap_xy [(0.25, 0)]) = 0.5.
Proof.
  unfold target_speed_of, mean.
  cbn [map swap_xy fst snd removelast tl combine firstn fold_right
       List.length _waypoint_step_gap _dt fresh_controller init INR].
  unfold swap_xy, psub. cbn [fst snd].
  rewrite (InterpolationFacts.norm_eq _ 0.25);
    [ lra | lra | cbn [fst snd]; lra ].
Qed.

Lemma slow_near_stop : near_stop fresh_controller [(0.25, 0)].
Proof.
  split.
  - apply init_well_configured; [discriminate | lra].
  - rewrite slow_target_speed. lra.
Qed.

Lemma slow_run (v : R) :
  step with_logger {| speed := v |} [(0.25, 0)] true fresh_controller
  = (set_brake_control fresh_controller
       (PidController.commit (_brake_control fresh_controller) v
          (PidSpec.candidate_integral (_brake_control fresh_controller) v)),
     Ok {| throttle := clip 0.0 0.0 1.0;
           steer := Fin 0.0;
           brake := clip (Rmax (0.5 * v) 0.05) 0.0 1.0 |}).
Proof.
  destruct (interpolate_returns (map swap_xy [(0.25, 0)]) 5.0) as [xy Hxy];
    [discriminate | ].
  destruct slow_near_stop as [_ Hslow].
  rewrite (step_near_stop with_logger {| speed := v |} [(0.25, 0)] true
             fresh_controller xy _ _ with_logger_bound Hxy Hslow
             (fresh_pid_step 0.1 v true)).
  rewrite fresh_pid_output. reflexivity.
Qed.

(** C3 as stated fails at current speed 10 with one waypoint a quarter of
    a unit ahead: the braking PID returns 5, the floor leaves 5, and the
    final clamp returns the brake 1. *)
Lemma near_stop_brake_counterexample :
  exists (self' : t) (out : VehicleControl),
    step with_logger {| speed := 10 |} [(0.25, 0)] true fresh_controller
    = (self', Ok out)
    /\ near_stop fresh_controller [(0.25, 0)]
    /\ snd (PidController.step 10 true (_brake_control fresh_controller))
       = Ok 5
    /\ brake out = 1
    /\ brake out <> Rmax 5 0.05.
Proof.
  do 2 eexists. split; [apply slow_run | ].
  split; [apply slow_near_stop | ].
  cbn [brake].
  assert (Hb : clip (Rmax (0.5 * 10) 0.05) 0.0 1.0 = 1).
  { clip_cases. }
  split; [ | split].
  - unfold fresh_controller, init. cbn [_brake_control].
    rewrite fresh_pid_step, fresh_pid_output. cbn [snd]. f_equal. lra.
  - exact Hb.
  - rewrite Hb. clip_cases.
Qed.

Lemma near_stop_actuation_witness :
  exists (self' : t) (out : VehicleControl),
    step with_logger {| speed := 1 |} [(0.25, 0)] true fresh_controller
    = (self', Ok out)
    /\ near_stop fresh_controller [(0.25, 0)]
    /\ throttle out = 0
    /\ steer out = Fin 0
    /\ exists pid_output : R,
         snd (PidController.step (speed {| speed := 1 |}) true
                (_brake_control fresh_controller)) = Ok pid_output
         /\ brake out = Rmin (Rmax pid_output 0.05) 1
         /\ 0.05 <= brake out <= 1.
Proof.
  do 2 eexists. split; [apply slow_run | ].
  split; [apply slow_near_stop | ].
  exact (near_stop_actuation _ _ _ _ _ _ _ (slow_run 1) slow_near_stop).
Defined.

(** Throttle and brake of every actuation that a well-configured controller
    returns are clamped. *)
Lemma throttle_brake_clamped (injected : list string) (state : TickState)
    (waypoints : list point) (update_pids : bool) (self self' : t)
    (out : VehicleControl) :
  well_configured self ->
  step injected state waypoints update_pids self = (self', Ok out) ->
  0 <= throttle out <= 1 /\ 0 <= brake out <= 1.
Proof.
  intros _. unfold step, bind, get, lookup_global, call, speed_control_step,
    brake_control_step, zoom.
  destruct (resolves injected "logger");
    [ | discriminate].
  unfold ret at 1.
  destruct (_interpolate_waypoint_n_meters_ahead _ 5.0) as [xy | e];
    [ | discriminate].
  unfold ret at 1.
  destruct (Rlt_dec _ 3.5) as [Hslow | Hfast].
  - destruct (PidController.step (speed state) update_pids _)
      as [pid [b | e]]; [ | discriminate].
    unfold ret. intros H. injection H as _ <-. cbn [throttle brake].
    split; (replace 0 with 0.0 by lra); (replace 1 with 1.0 by lra);
      apply clip_between; lra.
  - destruct (PidController.step _ update_pids (_speed_control self))
      as [pid_s [t_out | e]]; [ | discriminate].
    cbn [_brake_control set_speed_control].
    destruct (PidController.step _ update_pids (_brake_control self))
      as [pid_b [b_out | e]]; [ | discriminate].
    unfold ret. intros H. injection H as _ <-. cbn [throttle brake].
    split; (replace 0 with 0.0 by lra); (replace 1 with 1.0 by lra);
      apply clip_between; lra.
Qed.

(** Two waypoints, three units to the side and then back to one unit to
    the side: target speed 5, that is 18 km/h. *)
Lemma turning_target_speed :
  target_speed_of fresh_controller (map swap_xy [(0, 3); (0, 1)]) = 5.
Proof.
  unfold target_speed_of, mean.
  cbn [map swap_xy fst snd removelast tl combine firstn fold_right
       List.length _waypoint_step_gap _dt fresh_controller init INR].
  unfold swap_xy, psub. cbn [fst snd].
  rewrite (InterpolationFacts.norm_eq (0 - 3, 0 - 0) 3);
    [ | lra | cbn [fst snd]; lra ].
  rewrite (InterpolationFacts.norm_eq (3 - 1, 0 - 0) 2);
    [ | lra | cbn [fst snd]; lra ].
  lra.
Qed.

(** The point five units along that path is (1, 0). *)
Lemma turning_interpolation :
  _interpolate_waypoint_n_meters_ahead (map swap_xy [(0, 3); (0, 1)]) 5.0
  = Ok (Some (1, 0)).
Proof.
  unfold _interpolate_waypoint_n_meters_ahead.
  cbn [map]. unfold swap_xy. cbn [fst snd].
  rewrite InterpolationFacts.walk_cons.
  unfold psub. cbn [fst snd].
  rewrite (InterpolationFacts.norm_eq (3 - 0, 0 - 0) 3);
    [ | lra | cbn [fst snd]; lra ].
  destruct (Rge_dec (0 + 3) 5.0) as [Hge | _]; [lra | ].
  rewrite InterpolationFacts.walk_cons.
  unfold psub. cbn [fst snd].
  rewrite (InterpolationFacts.norm_eq (1 - 3, 0 - 0) 2);
    [ | lra | cbn [fst snd]; lra ].
  destruct (Rge_dec (0 + 3 + 2) 5.0) as [_ | Hlt]; [ | lra].
  rewrite InterpolationFacts.offset_along_defined by lra.
  cbn [fst snd]. apply InterpolationFacts.returned_point_eq; lra.
Qed.

Lemma atan_6_above_1 : 1 < atan 6.
Proof.
  pose proof PI2_3_2 as Hpi. pose proof PI_RGT_0 as Hpos.
  assert (Hthird : atan (sqrt 3) = PI / 3).
  { rewrite <- tan_PI3. apply atan_tan. lra. }
  assert (Hroot : sqrt 3 < 6).
  { rewrite <- (sqrt_square 6) by lra. apply sqrt_lt_1_alt. lra. }
  pose proof (atan_increasing _ _ Hroot) as Hinc.
  rewrite Hthird in Hinc. lra.
Qed.

Lemma turning_steering :
  steering_target fresh_controller (Some (1, 0)) = Fin (atan 6).
Proof.
  unfold steering_target.
  rewrite turning_radius_nonzero by lra.
  destruct (Rlt_dec 1 0.0) as [H | _]; [lra | ].
  cbn [turning_radius_to_steering_angle _kinematic_bicycle
       fresh_controller init bicycle].
  rewrite Rabs_R1. do 2 f_equal. lra.
Qed.

Lemma turning_run :
  step with_logger {| speed := 0 |} [(0, 3); (0, 1)] true
    fresh_controller
  = (set_brake_control
       (set_speed_control fresh_controller
          (PidController.commit (_speed_control fresh_controller) (5 - 0)
             (PidSpec.candidate_integral
                (_speed_control fresh_controller) (5 - 0))))
       (PidController.commit (_brake_control fresh_controller) (- (5 - 0))
          (PidSpec.candidate_integral
             (_brake_control fresh_controller) (- (5 - 0)))),
     Ok {| throttle := clip (0.5 * (5 - 0)) 0.0 1.0;
           steer := Fin (atan 6);
           brake := clip (0.5 * - (5 - 0)) 0.0 1.0 |}).
Proof.
  assert (Hfast : ~ target_speed_of fresh_controller
                      (map swap_xy [(0, 3); (0, 1)])
                    * 60.0 * 60.0 / 1000.0 < 3.5)
    by (rewrite turning_target_speed; lra).
  pose proof (fresh_pid_step 0.1 (5 - 0) true) as Hs.
  pose proof (fresh_pid_step 0.1 (- (5 - 0)) true) as Hb.
  cbv zeta in Hs, Hb. rewrite fresh_pid_output in Hs, Hb.
  rewrite <- turning_target_speed in Hs at 1 2.
  rewrite <- turning_target_speed in Hb at 1 2.
  rewrite (step_driving with_logger {| speed := 0 |} [(0, 3); (0, 1)]
             true fresh_controller (Some (1, 0)) _ _ _ _
             with_logger_bound turning_interpolation Hfast Hs Hb).
  rewrite turning_steering, turning_target_speed. reflexivity.
Qed.

(** C2 fails on the code: with the bicycle of wheelbase 3, current speed 0
    and the waypoints (0, 3), (0, 1), the call returns the steering
    [atan 6], which is above 1; the value clamped to 1 is computed and
    not returned.  Throttle and brake are within [0, 1]. *)
Theorem steering_returned_unclamped :
  exists (self' : t) (out : VehicleControl),
    step with_logger {| speed := 0 |} [(0, 3); (0, 1)] true
      fresh_controller = (self', Ok out)
    /\ steer out = Fin (atan 6)
    /\ 1 < atan 6
    /\ ~ xbetween (-1) 1 (steer out)
    /\ xclip (steer out) (-1.0) 1.0 = Fin 1
    /\ 0 <= throttle out <= 1
    /\ 0 <= brake out <= 1.
Proof.
  pose proof atan_6_above_1 as Hbig.
  do 2 eexists. split; [apply turning_run | ].
  cbn [steer throttle brake].
  split; [reflexivity | ]. split; [exact Hbig | ].
  split; [ | split].
  - unfold xbetween. lra.
  - clip_cases.
  - split; (replace 0 with 0.0 by lra); (replace 1 with 1.0 by lra);
      apply clip_between; lra.
Qed.

End VehicleFacts.

(** * Further properties *)

(** ** Unit vectors, angles and the projection on a circle *)

Module GeometryFacts.
Import GeometrySpec.

Lemma some_point_eq (x y x' y' : R) :
  x = x' -> y = y' -> Some (x, y) = Some (x', y').
Proof. intros -> ->. reflexivity. Qed.

Lemma over_norm_zero : over_norm (0, 0) = None.
Proof.
  unfold over_norm. rewrite InterpolationFacts.norm_origin.
  destruct (Req_dec_T 0 0) as [_ | H]; [reflexivity | now elim H].
Qed.

Lemma over_norm_nonzero (v : point) :
  v <> (0, 0) ->
  over_norm v = Some (fst v / norm v, snd v / norm v) /\ 0 < norm v.
Proof.
  intros Hv.
  assert (Hpos : 0 < norm v).
  { destruct (InterpolationFacts.norm_nonneg v) as [Hlt | Heq];
      [exact Hlt | ].
    elim Hv. apply InterpolationFacts.norm_zero. symmetry. exact Heq. }
  split; [ | exact Hpos].
  unfold over_norm.
  destruct (Req_dec_T (norm v) 0) as [Hz | _]; [lra | reflexivity].
Qed.

Lemma norm_over_norm (v : point) :
  v <> (0, 0) -> norm (fst v / norm v, snd v / norm v) = 1.
Proof.
  intros Hv. destruct (over_norm_nonzero v Hv) as [_ Hpos].
  pose proof (InterpolationFacts.norm_sqr v) as Hn.
  apply InterpolationFacts.norm_eq; [lra | ]. cbn [fst snd].
  replace ((fst v / norm v) ^ 2 + (snd v / norm v) ^ 2)
    with ((fst v ^ 2 + snd v ^ 2) / (norm v * norm v)) by (field; lra).
  rewrite <- Hn. field. lra.
Qed.

Lemma unit_sq (v : point) :
  v <> (0, 0) -> (fst v / norm v) ^ 2 + (snd v / norm v) ^ 2 = 1.
Proof.
  intros Hv. pose proof (norm_over_norm v Hv) as H1.
  pose proof (InterpolationFacts.norm_sqr (fst v / norm v, snd v / norm v))
    as Hs.
  rewrite H1 in Hs. cbn [fst snd] in Hs. lra.
Qed.

Lemma norm_scale (k : R) (v : point) :
  0 <= k -> norm (scale k v) = k * norm v.
Proof.
  intros Hk. pose proof (InterpolationFacts.norm_nonneg v) as Hn.
  pose proof (InterpolationFacts.norm_sqr v) as Hs.
  apply InterpolationFacts.norm_eq; [nra | ].
  unfold scale. cbn [fst snd]. nra.
Qed.

Lemma scale_nonzero (k : R) (v : point) :
  k <> 0 -> v <> (0, 0) -> scale k v <> (0, 0).
Proof.
  intros Hk Hv H. apply Hv. destruct v as [x y].
  unfold scale in H. cbn [fst snd] in H. injection H as Hx Hy.
  f_equal; nra.
Qed.

Lemma over_norm_scale (k : R) (v : point) :
  0 < k -> over_norm (scale k v) = over_norm v.
Proof.
  intros Hk.
  destruct (InterpolationFacts.norm_nonneg v) as [Hpos | Hz].
  - assert (Hv : v <> (0, 0)).
    { intros H. rewrite H, InterpolationFacts.norm_origin in Hpos. lra. }
    destruct (over_norm_nonzero v Hv) as [-> _].
    destruct (over_norm_nonzero (scale k v)) as [-> _].
    { apply scale_nonzero; [lra | exact Hv]. }
    rewrite norm_scale by lra. unfold scale. cbn [fst snd].
    apply some_point_eq; field; lra.
  - assert (Hv : v = (0, 0))
      by (apply InterpolationFacts.norm_zero; symmetry; exact Hz).
    subst v. unfold scale. cbn [fst snd]. rewrite !Rmult_0_r. reflexivity.
Qed.

(** X1: the unit vector of a non-zero vector has norm 1, points the same
    way (the vector is its norm times the unit vector) and is its own unit
    vector; the zero vector gives NaN. *)
Theorem unit_vector_normalises (v : point) (Hv : v <> (0, 0)) :
  exists u : point,
    _unit_vector v = Some u
    /\ norm u = 1
    /\ v = scale (norm v) u
    /\ _unit_vector u = Some u
    /\ _unit_vector (0, 0) = None.
Proof.
  destruct (over_norm_nonzero v Hv) as [Hu Hpos].
  exists (fst v / norm v, snd v / norm v).
  pose proof (norm_over_norm v Hv) as H1.
  split; [exact Hu | ]. split; [exact H1 | ]. split; [ | split].
  - destruct v as [x y]. unfold scale. cbn [fst snd] in *.
    f_equal; field; lra.
  - unfold _unit_vector, over_norm. rewrite H1.
    destruct (Req_dec_T 1 0) as [H | _]; [lra | ].
    cbn [fst snd]. apply some_point_eq; field; lra.
  - apply over_norm_zero.
Qed.

Lemma unit_vector_normalises_witness :
  (3, 4) <> (0, 0)
  /\ exists u : point,
       _unit_vector (3, 4) = Some u
       /\ norm u = 1
       /\ (3, 4) = scale (norm (3, 4)) u
       /\ _unit_vector u = Some u
       /\ _unit_vector (0, 0) = None.
Proof.
  assert (H : (3, 4) <> (0, 0)) by (intros H; injection H as H1 H2; lra).
  split; [exact H | exact (unit_vector_normalises (3, 4) H)].
Defined.

(** The dot product of two unit vectors lies between -1 and 1. *)
Lemma dot_units_bounded (v1 v2 : point) :
  v1 <> (0, 0) -> v2 <> (0, 0) ->
  -1 <= dot (fst v1 / norm v1, snd v1 / norm v1)
            (fst v2 / norm v2, snd v2 / norm v2) <= 1.
Proof.
  intros H1 H2. pose proof (unit_sq v1 H1) as Ha.
  pose proof (unit_sq v2 H2) as Hb.
  unfold dot. cbn [fst snd].
  set (a1 := fst v1 / norm v1) in *. set (a2 := snd v1 / norm v1) in *.
  set (b1 := fst v2 / norm v2) in *. set (b2 := snd v2 / norm v2) in *.
  pose proof (pow2_ge_0 (a1 - b1)). pose proof (pow2_ge_0 (a2 - b2)).
  pose proof (pow2_ge_0 (a1 + b1)). pose proof (pow2_ge_0 (a2 + b2)).
  nra.
Qed.

Lemma clip_inside (a lo hi : R) : lo <= a <= hi -> clip a lo hi = a.
Proof.
  intros H. unfold clip, Rmin, Rmax.
  destruct (Rle_dec a lo); destruct (Rle_dec _ hi); lra.
Qed.

Lemma angle_between_nonzero (v1 v2 : point) :
  v1 <> (0, 0) -> v2 <> (0, 0) ->
  _angle_between v1 v2 =
    Fin (acos (dot (fst v1 / norm v1, snd v1 / norm v1)
                   (fst v2 / norm v2, snd v2 / norm v2))).
Proof.
  intros H1 H2. unfold _angle_between, _unit_vector.
  destruct (over_norm_nonzero v1 H1) as [-> _].
  destruct (over_norm_nonzero v2 H2) as [-> _].
  rewrite clip_inside; [reflexivity | ].
  pose proof (dot_units_bounded v1 v2 H1 H2) as Hb. lra.
Qed.

(** X2: for two non-zero vectors the result is an angle between 0 and pi
    whose cosine is the dot product of the vectors over the product of
    their norms. *)
Theorem angle_between_cosine (v1 v2 : point)
    (H1 : v1 <> (0, 0)) (H2 : v2 <> (0, 0)) :
  exists angle : R,
    _angle_between v1 v2 = Fin angle
    /\ 0 <= angle <= PI
    /\ cos angle = dot v1 v2 / (norm v1 * norm v2).
Proof.
  destruct (over_norm_nonzero v1 H1) as [_ Hp1].
  destruct (over_norm_nonzero v2 H2) as [_ Hp2].
  eexists. split; [apply angle_between_nonzero; assumption | ].
  split; [apply acos_bound | ].
  rewrite cos_acos.
  - unfold dot. cbn [fst snd]. field. lra.
  - exact (dot_units_bounded v1 v2 H1 H2).
Qed.

Lemma angle_between_cosine_witness :
  (1, 0) <> (0, 0) /\ (1, 1) <> (0, 0)
  /\ exists angle : R,
       _angle_between (1, 0) (1, 1) = Fin angle
       /\ 0 <= angle <= PI
       /\ cos angle = dot (1, 0) (1, 1) / (norm (1, 0) * norm (1, 1)).
Proof.
  assert (H1 : (1, 0) <> (0, 0)) by (intros H; injection H as H; lra).
  assert (H2 : (1, 1) <> (0, 0)) by (intros H; injection H as H; lra).
  split; [exact H1 | ]. split; [exact H2 | ].
  exact (angle_between_cosine (1, 0) (1, 1) H1 H2).
Defined.

(** X3: the angle is NaN exactly when one of the vectors is the zero
    vector, and it does not depend on the order of the vectors. *)
Theorem angle_between_nan_and_symmetry (v1 v2 : point) :
  (_angle_between v1 v2 = NaN <-> v1 = (0, 0) \/ v2 = (0, 0))
  /\ _angle_between v1 v2 = _angle_between v2 v1.
Proof.
  assert (Hdec : forall v : point, v = (0, 0) \/ v <> (0, 0)).
  { intros [x y]. destruct (Req_dec_T x 0) as [-> | Hx].
    - destruct (Req_dec_T y 0) as [-> | Hy]; [now left | right].
      intros H. injection H as H. lra.
    - right. intros H. injection H as H _. lra. }
  assert (Hnan1 : forall w, _angle_between (0, 0) w = NaN).
  { intros w. unfold _angle_between, _unit_vector.
    rewrite over_norm_zero. reflexivity. }
  assert (Hnan2 : forall w, _angle_between w (0, 0) = NaN).
  { intros w. unfold _angle_between, _unit_vector.
    rewrite over_norm_zero. destruct (over_norm w); reflexivity. }
  destruct (Hdec v1) as [-> | H1].
  { split; [ | now rewrite Hnan1, Hnan2].
    split; [now left | intros _; apply Hnan1]. }
  destruct (Hdec v2) as [-> | H2].
  { split; [ | now rewrite Hnan1, Hnan2].
    split; [now right | intros _; apply Hnan2]. }
  split.
  - rewrite angle_between_nonzero by assumption.
    split; [discriminate | intros [H | H]; contradiction].
  - rewrite !angle_between_nonzero by assumption.
    do 2 f_equal. unfold dot. cbn [fst snd]. ring.
Qed.

(** X4: the angle depends on the directions only: stretching either vector
    by a positive factor leaves it unchanged; a vector makes the angle 0
    with itself, pi with its opposite and pi / 2 with a non-zero vector
    orthogonal to it. *)
Theorem angle_between_directions (v w : point) (k1 k2 : R)
    (Hv : v <> (0, 0)) (Hw : w <> (0, 0)) (Hk1 : 0 < k1) (Hk2 : 0 < k2) :
  _angle_between (scale k1 v) (scale k2 w) = _angle_between v w
  /\ _angle_between v v = Fin 0
  /\ _angle_between v (scale (-1) v) = Fin PI
  /\ (dot v w = 0 -> _angle_between v w = Fin (PI / 2)).
Proof.
  destruct (over_norm_nonzero v Hv) as [_ Hpv].
  destruct (over_norm_nonzero w Hw) as [_ Hpw].
  pose proof (unit_sq v Hv) as Hsq.
  split; [ | split; [ | split]].
  - unfold _angle_between, _unit_vector.
    rewrite !over_norm_scale by assumption. reflexivity.
  - rewrite angle_between_nonzero by assumption.
    replace (dot _ _) with 1; [now rewrite acos_1 | ].
    unfold dot. cbn [fst snd]. lra.
  - assert (Hneg : scale (-1) v <> (0, 0))
      by (apply scale_nonzero; [lra | exact Hv]).
    rewrite angle_between_nonzero by assumption.
    assert (Hn : norm (scale (-1) v) = norm v).
    { pose proof (InterpolationFacts.norm_sqr v) as Hs.
      apply InterpolationFacts.norm_eq; [lra | ].
      unfold scale. cbn [fst snd]. lra. }
    rewrite Hn. unfold scale. cbn [fst snd].
    replace (dot _ _) with (Ropp 1).
    + rewrite acos_opp, acos_1. f_equal. lra.
    + unfold dot. cbn [fst snd].
      replace (fst v / norm v * (-1 * fst v / norm v)
               + snd v / norm v * (-1 * snd v / norm v))
        with (- ((fst v / norm v) ^ 2 + (snd v / norm v) ^ 2))
        by (field; lra).
      lra.
  - intros Hdot. rewrite angle_between_nonzero by assumption.
    replace (dot _ _) with 0; [now rewrite acos_0 | ].
    unfold dot in *. cbn [fst snd].
    replace (fst v / norm v * (fst w / norm w)
             + snd v / norm v * (snd w / norm w))
      with ((fst v * fst w + snd v * snd w) / (norm v * norm w))
      by (field; lra).
    rewrite Hdot. field. lra.
Qed.

Lemma angle_between_directions_witness :
  (2, 0) <> (0, 0) /\ (0, 3) <> (0, 0) /\ 0 < 5 /\ 0 < 7
  /\ _angle_between (scale 5 (2, 0)) (scale 7 (0, 3))
     = _angle_between (2, 0) (0, 3)
  /\ _angle_between (2, 0) (0, 3) = Fin (PI / 2).
Proof.
  assert (H1 : (2, 0) <> (0, 0)) by (intros H; injection H as H; lra).
  assert (H2 : (0, 3) <> (0, 0)) by (intros H; injection H as H; lra).
  assert (H5 : 0 < 5) by lra. assert (H7 : 0 < 7) by lra.
  destruct (angle_between_directions (2, 0) (0, 3) 5 7 H1 H2 H5 H7)
    as (Hs & _ & _ & Ho).
  repeat (split; [assumption | ]).
  apply Ho. unfold dot. cbn [fst snd]. lra.
Defined.

Lemma psub_nonzero (a b : point) : a <> b -> psub a b <> (0, 0).
Proof. intros Hab H. apply Hab. apply InterpolationFacts.psub_zero, H. Qed.

Lemma project_defined (pt c : point) (radius : R) :
  pt <> c ->
  _project_point_on_circle pt c radius =
    Some (fst c + fst (psub pt c) / norm (psub pt c) * radius,
          snd c + snd (psub pt c) / norm (psub pt c) * radius).
Proof.
  intros Hpt. unfold _project_point_on_circle.
  destruct (over_norm_nonzero _ (psub_nonzero pt c Hpt)) as [-> _].
  reflexivity.
Qed.

(** X5: projecting a point other than the centre gives the point of the
    circle that lies on the ray from the centre through the point: its
    distance from the centre is the radius (its absolute value, if a
    negative radius is passed).  Projecting the centre itself gives NaN. *)
Theorem project_lands_on_circle (pt c : point) (radius : R)
    (Hpt : pt <> c) :
  exists q : point,
    _project_point_on_circle pt c radius = Some q
    /\ norm (psub q c) = Rabs radius
    /\ psub q c = scale (radius / norm (psub pt c)) (psub pt c)
    /\ _project_point_on_circle c c radius = None.
Proof.
  pose proof (psub_nonzero pt c Hpt) as Hd.
  destruct (over_norm_nonzero _ Hd) as [_ Hpos].
  pose proof (unit_sq _ Hd) as Hsq.
  eexists. split; [apply project_defined; exact Hpt | ].
  split; [ | split].
  - apply InterpolationFacts.norm_eq; [apply Rabs_pos | ].
    set (u1 := fst (psub pt c) / norm (psub pt c)) in *.
    set (u2 := snd (psub pt c) / norm (psub pt c)) in *.
    unfold psub. cbn [fst snd].
    replace (Rabs radius * Rabs radius) with (radius * radius)
      by (unfold Rabs; destruct (Rcase_abs radius); ring).
    nra.
  - unfold psub at 1, scale. cbn [fst snd].
    apply injective_projections; cbn [fst snd]; field; lra.
  - unfold _project_point_on_circle.
    replace (psub c c) with ((0, 0) : point)
      by (unfold psub; f_equal; ring).
    now rewrite over_norm_zero.
Qed.

Lemma project_lands_on_circle_witness :
  (3, 4) <> (0, 0)
  /\ exists q : point,
       _project_point_on_circle (3, 4) (0, 0) 10 = Some q
       /\ norm (psub q (0, 0)) = Rabs 10
       /\ psub q (0, 0)
          = scale (10 / norm (psub (3, 4) (0, 0))) (psub (3, 4) (0, 0))
       /\ _project_point_on_circle (0, 0) (0, 0) 10 = None.
Proof.
  assert (H : (3, 4) <> (0, 0)) by (intros H; injection H as H1 H2; lra).
  split; [exact H | exact (project_lands_on_circle (3, 4) (0, 0) 10 H)].
Defined.

(** X6: with a positive radius, a point of the circle is its own
    projection, and projecting twice is the same as projecting once. *)
Theorem project_is_idempotent (pt c : point) (radius : R)
    (Hpt : pt <> c) (Hr : 0 < radius) :
  (norm (psub pt c) = radius ->
   _project_point_on_circle pt c radius = Some pt)
  /\ forall q : point,
       _project_point_on_circle pt c radius = Some q ->
       _project_point_on_circle q c radius = Some q.
Proof.
  pose proof (psub_nonzero pt c Hpt) as Hd.
  destruct (over_norm_nonzero _ Hd) as [_ Hpos].
  assert (Hfix : forall p : point,
             p <> c -> norm (psub p c) = radius ->
             _project_point_on_circle p c radius = Some p).
  { intros p Hp Hn. rewrite project_defined by exact Hp. rewrite Hn.
    destruct p as [px py], c as [cx cy]. unfold psub. cbn [fst snd].
    apply some_point_eq; field; lra. }
  split; [apply Hfix; exact Hpt | ].
  intros q Hq. rewrite project_defined in Hq by exact Hpt.
  pose proof (unit_sq _ Hd) as Hsq.
  remember (fst (psub pt c) / norm (psub pt c)) as u1 eqn:E1 in *.
  remember (snd (psub pt c) / norm (psub pt c)) as u2 eqn:E2 in *.
  clear E1 E2. injection Hq as Hq. subst q. apply Hfix.
  - intros H.
    assert (H1 : fst c + u1 * radius = fst c) by exact (f_equal fst H).
    assert (H2 : snd c + u2 * radius = snd c) by exact (f_equal snd H).
    assert (Hu1 : u1 * radius = 0) by lra.
    assert (Hu2 : u2 * radius = 0) by lra.
    apply Rmult_integral in Hu1. apply Rmult_integral in Hu2.
    destruct Hu1 as [Hu1 | Hu1]; [ | lra].
    destruct Hu2 as [Hu2 | Hu2]; [ | lra].
    rewrite Hu1, Hu2 in Hsq. lra.
  - apply InterpolationFacts.norm_eq; [lra | ].
    unfold psub. cbn [fst snd]. nra.
Qed.

Lemma project_is_idempotent_witness :
  (3, 4) <> (0, 0) /\ 0 < 5
  /\ (norm (psub (3, 4) (0, 0)) = 5 ->
      _project_point_on_circle (3, 4) (0, 0) 5 = Some (3, 4))
  /\ forall q : point,
       _project_point_on_circle (3, 4) (0, 0) 5 = Some q ->
       _project_point_on_circle q (0, 0) 5 = Some q.
Proof.
  assert (H : (3, 4) <> (0, 0)) by (intros H; injection H as H1 H2; lra).
  assert (H5 : 0 < 5) by lra.
  split; [exact H | ]. split; [exact H5 | ].
  exact (project_is_idempotent (3, 4) (0, 0) 5 H H5).
Defined.

End GeometryFacts.

(** ** The least-squares circle fit *)

Module CircleFitFacts.
Import GeometrySpec.

Lemma sum_ext_in {A : Type} (f g : A -> R) (l : list A) :
  (forall a, In a l -> f a = g a) ->
  np_sum (map f l) = np_sum (map g l).
Proof.
  intros H. induction l as [ | a l IH]; [reflexivity | ].
  cbn [map np_sum fold_right]. fold (np_sum (map f l)) (np_sum (map g l)).
  rewrite IH by (intros b Hb; apply H; now right).
  rewrite (H a) by now left. reflexivity.
Qed.

Lemma sum_plus {A : Type} (f g : A -> R) (l : list A) :
  np_sum (map (fun a => f a + g a) l) = np_sum (map f l) + np_sum (map g l).
Proof.
  induction l as [ | a l IH]; cbn [map np_sum fold_right];
    [lra | ].
  fold (np_sum (map (fun a => f a + g a) l)) (np_sum (map f l))
    (np_sum (map g l)).
  rewrite IH. ring.
Qed.

Lemma sum_scal {A : Type} (k : R) (f : A -> R) (l : list A) :
  np_sum (map (fun a => k * f a) l) = k * np_sum (map f l).
Proof.
  induction l as [ | a l IH]; cbn [map np_sum fold_right];
    [lra | ].
  fold (np_sum (map (fun a => k * f a) l)) (np_sum (map f l)).
  rewrite IH. ring.
Qed.

Lemma sum_const {A : Type} (k : R) (l : list A) :
  np_sum (map (fun _ => k) l) = INR (List.length l) * k.
Proof.
  induction l as [ | a l IH].
  - simpl. lra.
  - cbn [map np_sum fold_right]. fold (np_sum (map (fun _ : A => k) l)).
    rewrite IH. cbn [List.length]. rewrite S_INR. ring.
Qed.

Lemma sum_squares_nonneg {A : Type} (f : A -> R) (l : list A) :
  0 <= np_sum (map (fun a => f a ^ 2) l).
Proof.
  induction l as [ | a l IH]; cbn [map np_sum fold_right]; [lra | ].
  fold (np_sum (map (fun a => f a ^ 2) l)).
  pose proof (pow2_ge_0 (f a)). lra.
Qed.

Lemma sum_squares_zero {A : Type} (f : A -> R) (l : list A) :
  np_sum (map (fun a => f a ^ 2) l) = 0 ->
  forall a, In a l -> f a = 0.
Proof.
  induction l as [ | b l IH]; intros Hs a Ha; [now elim Ha | ].
  cbn [map np_sum fold_right] in Hs.
  fold (np_sum (map (fun a => f a ^ 2) l)) in Hs.
  pose proof (pow2_ge_0 (f b)) as Hb.
  pose proof (sum_squares_nonneg f l) as Hl.
  destruct Ha as [<- | Ha].
  - assert (H0 : f b ^ 2 = 0) by lra. nra.
  - apply IH; [lra | exact Ha].
Qed.

Lemma length_pos {A : Type} (l : list A) : l <> [] -> 0 < INR (List.length l).
Proof.
  destruct l as [ | a l]; [intros H; now elim H | intros _].
  cbn [List.length]. rewrite S_INR. pose proof (pos_INR (List.length l)). lra.
Qed.

Lemma mean_sum (xs : list R) : mean xs = np_sum xs / INR (List.length xs).
Proof. reflexivity. Qed.

(** The offsets from the mean sum to zero. *)
Lemma sum_centred {A : Type} (f : A -> R) (l : list A) :
  l <> [] ->
  np_sum (map (fun a => f a - mean (map f l)) l) = 0.
Proof.
  intros Hne. pose proof (length_pos l Hne) as Hpos.
  replace (map (fun a => f a - mean (map f l)) l)
    with (map (fun a => f a + (-1) * mean (map f l)) l)
    by (apply map_ext; intros; ring).
  rewrite (sum_plus f (fun _ => (-1) * mean (map f l))).
  rewrite sum_const, mean_sum, length_map. field. lra.
Qed.

Lemma times_map {A : Type} (f g : A -> R) (l : list A) :
  times (map f l) (map g l) = map (fun a => f a * g a) l.
Proof.
  unfold times. induction l as [ | a l IH]; [reflexivity | ].
  cbn [map combine fst snd]. rewrite IH. reflexivity.
Qed.

(** The fit in terms of the centred sums. *)
Lemma fit_unfold (points : list point) :
  _least_square_circle_fit points =
    match
      solve2 (centred_sum (fun u _ => u ^ 2) points)
             (centred_sum (fun u v => u * v) points)
             (centred_sum (fun u v => u * v) points)
             (centred_sum (fun _ v => v ^ 2) points)
             (1 / 2.0 * centred_sum (fun u _ => u ^ 3) points
              + 1 / 2.0 * centred_sum (fun u v => u * v * v) points)
             (1 / 2.0 * centred_sum (fun _ v => v ^ 3) points
              + 1 / 2.0 * centred_sum (fun u v => v * u * u) points)
    with
    | LinAlgError => LinAlgError
    | Returned (cx, cy) =>
        Returned
          ((cx + mean (map fst points), cy + mean (map snd points)),
           sqrt (cx * cx + cy * cy
                 + (centred_sum (fun u _ => u ^ 2) points
                    + centred_sum (fun _ v => v ^ 2) points)
                   / INR (List.length points)))
    end.
Proof.
  unfold _least_square_circle_fit, centred_sum. cbv zeta.
  rewrite !map_map, !times_map, ?map_map, length_map.
  reflexivity.
Qed.

Lemma sum_linear3 {A : Type} (k1 k2 k3 : R) (f g h : A -> R) (l : list A) :
  np_sum (map (fun a => k1 * f a + k2 * g a + k3 * h a) l)
  = k1 * np_sum (map f l) + k2 * np_sum (map g l) + k3 * np_sum (map h l).
Proof.
  rewrite (sum_plus (fun a => k1 * f a + k2 * g a) (fun a => k3 * h a)).
  rewrite (sum_plus (fun a => k1 * f a) (fun a => k2 * g a)).
  rewrite !sum_scal. reflexivity.
Qed.

Lemma centred_sum_nil (f : R -> R -> R) : centred_sum f [] = 0.
Proof. reflexivity. Qed.

(** The sum of the squares of [v - lambda * u] in terms of the second
    moments. *)
Lemma residual_sum (lambda : R) (points : list point) :
  centred_sum (fun u v => (v - lambda * u) ^ 2) points
  = centred_sum (fun _ v => v ^ 2) points
    - 2 * lambda * centred_sum (fun u v => u * v) points
    + lambda ^ 2 * centred_sum (fun u _ => u ^ 2) points.
Proof.
  unfold centred_sum.
  set (U := fun p : point => fst p - mean (map fst points)).
  set (V := fun p : point => snd p - mean (map snd points)).
  rewrite (sum_ext_in _
             (fun p => 1 * V p ^ 2 + (- (2 * lambda)) * (U p * V p)
                       + lambda ^ 2 * U p ^ 2))
    by (intros p _; unfold U, V; ring).
  rewrite (sum_linear3 1 (- (2 * lambda)) (lambda ^ 2)
             (fun p => V p ^ 2) (fun p => U p * V p) (fun p => U p ^ 2)).
  unfold U, V. ring.
Qed.

Lemma determinant_zero_collinear (points : list point) :
  moment_determinant points = 0 -> collinear points.
Proof.
  intros Hdet. unfold moment_determinant in Hdet.
  destruct (Req_dec_T (centred_sum (fun u _ => u ^ 2) points) 0)
    as [Huu | Huu].
  - exists 1, 0, (mean (map fst points)). split; [left; lra | ].
    intros p Hp.
    pose proof (sum_squares_zero
                  (fun p : point => fst p - mean (map fst points))
                  points Huu p Hp) as H.
    cbv beta in H. lra.
  - set (lambda := centred_sum (fun u v => u * v) points
                   / centred_sum (fun u _ => u ^ 2) points).
    assert (Hres : centred_sum (fun u v => (v - lambda * u) ^ 2) points = 0).
    { rewrite residual_sum. unfold lambda. field_simplify; [ | exact Huu].
      replace (centred_sum (fun _ v : R => v ^ 2) points
               * centred_sum (fun u _ : R => u ^ 2) points
               - centred_sum (fun u v : R => u * v) points ^ 2)
        with 0 by lra.
      unfold Rdiv. ring. }
    exists (- lambda), 1,
      (mean (map snd points) - lambda * mean (map fst points)).
    split; [right; lra | ].
    intros p Hp.
    pose proof (sum_squares_zero
                  (fun p : point =>
                     snd p - mean (map snd points)
                     - lambda * (fst p - mean (map fst points)))
                  points Hres p Hp) as H.
    cbv beta in H. lra.
Qed.







Lemma centred_sum_ext (f g : R -> R -> R) (points : list point) :
  (forall p, In p points ->
     f (fst p - mean (map fst points)) (snd p - mean (map snd points))
     = g (fst p - mean (map fst points)) (snd p - mean (map snd points))) ->
  centred_sum f points = centred_sum g points.
Proof. intros H. unfold centred_sum. apply sum_ext_in. exact H. Qed.

Lemma centred_sum_linear3 (k1 k2 k3 : R) (f g h : R -> R -> R)
    (points : list point) :
  centred_sum (fun u v => k1 * f u v + k2 * g u v + k3 * h u v) points
  = k1 * centred_sum f points + k2 * centred_sum g points
    + k3 * centred_sum h points.
Proof. unfold centred_sum. apply sum_linear3. Qed.

Lemma centred_sum_plus (f g : R -> R -> R) (points : list point) :
  centred_sum (fun u v => f u v + g u v) points
  = centred_sum f points + centred_sum g points.
Proof. unfold centred_sum. apply sum_plus. Qed.

Lemma centred_sum_const (k : R) (points : list point) :
  centred_sum (fun _ _ => k) points = INR (List.length points) * k.
Proof. unfold centred_sum. apply sum_const. Qed.

Lemma centred_sum_u (points : list point) :
  points <> [] -> centred_sum (fun u _ => u) points = 0.
Proof. intros H. unfold centred_sum. apply (sum_centred (@fst R R)), H. Qed.

Lemma centred_sum_v (points : list point) :
  points <> [] -> centred_sum (fun _ v => v) points = 0.
Proof. intros H. unfold centred_sum. apply (sum_centred (@snd R R)), H. Qed.

Lemma returned_fit_eq (x y r x' y' r' : R) :
  x = x' -> y = y' -> r = r' ->
  @Returned (point * R) ((x, y), r) = Returned ((x', y'), r').
Proof. intros -> -> ->. reflexivity. Qed.

Lemma determinant_nonzero_nonempty (points : list point) :
  moment_determinant points <> 0 -> points <> [].
Proof.
  intros Hdet Hnil. apply Hdet. subst points.
  unfold moment_determinant. rewrite !centred_sum_nil. ring.
Qed.

(** What the fit returns when the matrix of second moments is regular. *)
Lemma fit_regular (points : list point) :
  moment_determinant points <> 0 ->
  exists cx cy : R,
    centred_sum (fun u _ => u ^ 2) points * cx
    + centred_sum (fun u v => u * v) points * cy
    = 1 / 2 * (centred_sum (fun u _ => u ^ 3) points
               + centred_sum (fun u v => u * v * v) points)
    /\ centred_sum (fun u v => u * v) points * cx
       + centred_sum (fun _ v => v ^ 2) points * cy
       = 1 / 2 * (centred_sum (fun _ v => v ^ 3) points
                  + centred_sum (fun u v => v * u * u) points)
    /\ _least_square_circle_fit points =
         Returned
           ((cx + mean (map fst points), cy + mean (map snd points)),
            sqrt (cx * cx + cy * cy
                  + (centred_sum (fun u _ => u ^ 2) points
                     + centred_sum (fun _ v => v ^ 2) points)
                    / INR (List.length points))).
Proof.
  intros Hdet. rewrite fit_unfold. unfold solve2.
  unfold moment_determinant in Hdet.
  set (Suu := centred_sum (fun u _ => u ^ 2) points) in *.
  set (Suv := centred_sum (fun u v => u * v) points) in *.
  set (Svv := centred_sum (fun _ v => v ^ 2) points) in *.
  set (Suuu := centred_sum (fun u _ => u ^ 3) points).
  set (Suvv := centred_sum (fun u v => u * v * v) points).
  set (Svvv := centred_sum (fun _ v => v ^ 3) points).
  set (Svuu := centred_sum (fun u v => v * u * u) points).
  destruct (Req_dec_T (Suu * Svv - Suv * Suv) 0) as [Hz | _];
    [now elim Hdet | ].
  replace (1 / 2.0 * Suuu + 1 / 2.0 * Suvv) with (1 / 2 * (Suuu + Suvv))
    by lra.
  replace (1 / 2.0 * Svvv + 1 / 2.0 * Svuu) with (1 / 2 * (Svvv + Svuu))
    by lra.
  do 2 eexists. split; [ | split; [ | reflexivity]]; field; exact Hdet.
Qed.

(** Every solution of the two normal equations is the one that the
    regular system has. *)
Lemma normal_equations_unique (Suu Suv Svv b1 b2 x y x' y' : R) :
  Suu * Svv - Suv * Suv <> 0 ->
  Suu * x + Suv * y = b1 -> Suv * x + Svv * y = b2 ->
  Suu * x' + Suv * y' = b1 -> Suv * x' + Svv * y' = b2 ->
  x = x' /\ y = y'.
Proof.
  intros Hdet H1 H2 H1' H2'.
  assert (Hx : (Suu * Svv - Suv * Suv) * (x - x') = 0).
  { replace ((Suu * Svv - Suv * Suv) * (x - x'))
      with (Svv * ((Suu * x + Suv * y) - (Suu * x' + Suv * y'))
            - Suv * ((Suv * x + Svv * y) - (Suv * x' + Svv * y')))
      by ring.
    rewrite H1, H2, H1', H2'. ring. }
  assert (Hy : (Suu * Svv - Suv * Suv) * (y - y') = 0).
  { replace ((Suu * Svv - Suv * Suv) * (y - y'))
      with (Suu * ((Suv * x + Svv * y) - (Suv * x' + Svv * y'))
            - Suv * ((Suu * x + Suv * y) - (Suu * x' + Suv * y')))
      by ring.
    rewrite H1, H2, H1', H2'. ring. }
  apply Rmult_integral in Hx. apply Rmult_integral in Hy.
  destruct Hx as [Hx | Hx]; [contradiction | ].
  destruct Hy as [Hy | Hy]; [contradiction | ].
  split; lra.
Qed.

(** For points on a circle, the offset of the centre from the means solves
    the normal equations, and the second moments give the radius. *)
Lemma circle_moments (points : list point) (centre : point) (radius : R) :
  points <> [] ->
  (forall p, In p points -> on_circle centre radius p) ->
  centred_sum (fun u _ => u ^ 2) points
    * (fst centre - mean (map fst points))
  + centred_sum (fun u v => u * v) points
    * (snd centre - mean (map snd points))
  = 1 / 2 * (centred_sum (fun u _ => u ^ 3) points
             + centred_sum (fun u v => u * v * v) points)
  /\ centred_sum (fun u v => u * v) points
       * (fst centre - mean (map fst points))
     + centred_sum (fun _ v => v ^ 2) points
       * (snd centre - mean (map snd points))
     = 1 / 2 * (centred_sum (fun _ v => v ^ 3) points
                + centred_sum (fun u v => v * u * u) points)
  /\ centred_sum (fun u _ => u ^ 2) points
     + centred_sum (fun _ v => v ^ 2) points
     = INR (List.length points)
       * (radius ^ 2 - (fst centre - mean (map fst points)) ^ 2
          - (snd centre - mean (map snd points)) ^ 2).
Proof.
  intros Hne Hon.
  set (a := fst centre - mean (map fst points)).
  set (b := snd centre - mean (map snd points)).
  set (K := radius ^ 2 - a ^ 2 - b ^ 2).
  assert (Hc : forall p, In p points ->
             (fst p - mean (map fst points)) ^ 2
             + (snd p - mean (map snd points)) ^ 2
             = 2 * a * (fst p - mean (map fst points))
               + 2 * b * (snd p - mean (map snd points)) + K).
  { intros p Hp. pose proof (Hon p Hp) as H. unfold on_circle in H.
    unfold K, a, b. lra. }
  pose proof (centred_sum_u points Hne) as Hu.
  pose proof (centred_sum_v points Hne) as Hv.
  split; [ | split].
  - rewrite <- (centred_sum_plus (fun u _ => u ^ 3) (fun u v => u * v * v)).
    rewrite (centred_sum_ext (fun u v => u ^ 3 + u * v * v)
               (fun u v => (2 * a) * (u ^ 2) + (2 * b) * (u * v) + K * u)).
    + rewrite (centred_sum_linear3 (2 * a) (2 * b) K
                 (fun u _ => u ^ 2) (fun u v => u * v) (fun u _ => u)).
      rewrite Hu. field.
    + intros p Hp. pose proof (Hc p Hp) as H.
      set (u := fst p - mean (map fst points)) in *.
      set (v := snd p - mean (map snd points)) in *.
      replace (u ^ 3 + u * v * v) with (u * (u ^ 2 + v ^ 2)) by ring.
      rewrite H. ring.
  - rewrite <- (centred_sum_plus (fun _ v => v ^ 3) (fun u v => v * u * u)).
    rewrite (centred_sum_ext (fun u v => v ^ 3 + v * u * u)
               (fun u v => (2 * a) * (u * v) + (2 * b) * (v ^ 2) + K * v)).
    + rewrite (centred_sum_linear3 (2 * a) (2 * b) K
                 (fun u v => u * v) (fun _ v => v ^ 2) (fun _ v => v)).
      rewrite Hv. field.
    + intros p Hp. pose proof (Hc p Hp) as H.
      set (u := fst p - mean (map fst points)) in *.
      set (v := snd p - mean (map snd points)) in *.
      replace (v ^ 3 + v * u * u) with (v * (u ^ 2 + v ^ 2)) by ring.
      rewrite H. ring.
  - rewrite <- (centred_sum_plus (fun u _ => u ^ 2) (fun _ v => v ^ 2)).
    rewrite (centred_sum_ext (fun u v => u ^ 2 + v ^ 2)
               (fun u v => (2 * a) * u + (2 * b) * v + K * 1)).
    + rewrite (centred_sum_linear3 (2 * a) (2 * b) K
                 (fun u _ => u) (fun _ v => v) (fun _ _ => 1)).
      rewrite Hu, Hv, centred_sum_const. ring.
    + intros p Hp. rewrite (Hc p Hp). ring.
Qed.

Lemma fit_circle_through (points : list point) (centre : point)
    (radius : R) :
  0 <= radius ->
  (forall p, In p points -> on_circle centre radius p) ->
  ~ collinear points ->
  _least_square_circle_fit points = Returned (centre, radius).
Proof.
  intros Hr Hon Hnc.
  assert (Hdet : moment_determinant points <> 0)
    by (intros H; apply Hnc, determinant_zero_collinear, H).
  pose proof (determinant_nonzero_nonempty points Hdet) as Hne.
  destruct (fit_regular points Hdet) as (cx & cy & H1 & H2 & ->).
  destruct (circle_moments points centre radius Hne Hon)
    as (H1' & H2' & H3).
  destruct (normal_equations_unique _ _ _ _ _ _ _ _ _ Hdet H1 H2 H1' H2')
    as [-> ->].
  rewrite H3. pose proof (length_pos points Hne) as Hpos.
  destruct centre as [a b]. cbn [fst snd].
  apply returned_fit_eq; [ring | ring | ].
  set (a' := a - mean (map fst points)).
  set (b' := b - mean (map snd points)).
  replace (a' * a' + b' * b'
           + INR (List.length points) * (radius ^ 2 - a' ^ 2 - b' ^ 2)
             / INR (List.length points))
    with (radius * radius) by (field; lra).
  apply sqrt_square. exact Hr.
Qed.

(** X8: for points that lie on a circle and not on one line, the fit
    returns the centre and the radius of that circle. *)
Theorem fit_recovers_circle (points : list point) (centre : point)
    (radius : R)
    (Hr : 0 <= radius)
    (Hon : forall p, In p points -> on_circle centre radius p)
    (Hnc : ~ collinear points) :
  _least_square_circle_fit points = Returned (centre, radius).
Proof. exact (fit_circle_through points centre radius Hr Hon Hnc). Qed.

Lemma fit_recovers_circle_witness :
  0 <= 1
  /\ (forall p, In p [(1, 0); (0, 1); (-1, 0)] -> on_circle (0, 0) 1 p)
  /\ ~ collinear [(1, 0); (0, 1); (-1, 0)]
  /\ _least_square_circle_fit [(1, 0); (0, 1); (-1, 0)]
     = Returned ((0, 0), 1).
Proof.
  assert (Hr : 0 <= 1) by lra.
  assert (Hon : forall p, In p [(1, 0); (0, 1); (-1, 0)] ->
                on_circle (0, 0) 1 p).
  { intros p [<- | [<- | [<- | []]]]; unfold on_circle; cbn [fst snd]; lra. }
  assert (Hnc : ~ collinear [(1, 0); (0, 1); (-1, 0)]).
  { intros (alpha & beta & gamma & Hnz & H).
    pose proof (H (1, 0) (or_introl eq_refl)) as H1.
    pose proof (H (0, 1) (or_intror (or_introl eq_refl))) as H2.
    pose proof (H (-1, 0) (or_intror (or_intror (or_introl eq_refl))))
      as H3.
    cbn [fst snd] in H1, H2, H3. destruct Hnz; lra. }
  split; [exact Hr | ]. split; [exact Hon | ]. split; [exact Hnc | ].
  exact (fit_recovers_circle _ (0, 0) 1 Hr Hon Hnc).
Defined.








End CircleFitFacts.

(** ** Histories of PID steps *)

Module PidHistoryFacts.
Import PidController PidSpec PidHistorySpec.

Lemma step_state (self : t) (error : R) (update : bool) :
  fst (step error update self) = self
  \/ (update = true
      /\ fst (step error update self)
         = commit self error (candidate_integral self error)).
Proof.
  destruct (PidFacts.divides_dec self) as [Hd | Hd].
  - rewrite PidFacts.step_defined by assumption.
    destruct update; [right; split; reflexivity | left; reflexivity].
  - rewrite PidFacts.step_raises by assumption. left. reflexivity.
Qed.

Lemma preview_keeps_state (self : t) (error : R) :
  fst (step error false self) = self.
Proof.
  destruct (step_state self error false) as [H | [H _]];
    [exact H | discriminate].
Qed.

(** X11: the calls of a history that do not update can be left out: the
    controller ends in the same state. *)
Theorem previews_can_be_dropped (history : list (R * bool)) (self : t) :
  after history self = after (committed history) self.
Proof.
  revert self.
  induction history as [ | [error update] rest IH]; intros self;
    [reflexivity | ].
  unfold committed. cbn [filter snd after].
  destruct update.
  - cbn [after]. apply IH.
  - rewrite preview_keeps_state. apply IH.
Qed.

Lemma after_app (h1 h2 : list (R * bool)) (self : t) :
  after (h1 ++ h2) self = after h2 (after h1 self).
Proof.
  revert self. induction h1 as [ | [error update] rest IH]; intros self;
    [reflexivity | ].
  cbn [app after]. apply IH.
Qed.

Lemma after_keeps_coefficients (history : list (R * bool)) (self : t) :
  _coef_proportional (after history self) = _coef_proportional self
  /\ _coef_integral (after history self) = _coef_integral self
  /\ _coef_derivative (after history self) = _coef_derivative self.
Proof.
  revert self.
  induction history as [ | [error update] rest IH]; intros self;
    cbn [after]; [repeat split | ].
  destruct (IH (fst (step error update self))) as (Hp & Hi & Hd).
  destruct (PidFacts.step_keeps_parameters self error update)
    as (Hp' & Hi' & Hd' & _).
  cbv zeta in Hp', Hi', Hd'.
  repeat split; congruence.
Qed.

(** X12: a controller constructed without integral and derivative
    coefficients (the defaults) is purely proportional: after any history,
    a step that returns returns [proportional * error]; with a zero
    proportional coefficient as well it returns 0. *)
Theorem proportional_only_output
    (unit_time_per_step proportional discounting : R)
    (history : list (R * bool)) (error control : R) (update : bool)
    (Hreturns :
       snd (step error update
              (after history
                 (init unit_time_per_step proportional 0.0 0.0 discounting)))
       = Ok control) :
  control = proportional * error
  /\ (proportional = 0 -> control = 0).
Proof.
  set (self := after history
                 (init unit_time_per_step proportional 0.0 0.0 discounting))
    in *.
  destruct (after_keeps_coefficients history
              (init unit_time_per_step proportional 0.0 0.0 discounting))
    as (Hp & Hi & Hd).
  fold self in Hp, Hi, Hd. cbn [init _coef_proportional _coef_integral
                                 _coef_derivative] in Hp, Hi, Hd.
  assert (Hc : control = proportional * error).
  { destruct (PidFacts.divides_dec self) as [Hdiv | Hdiv].
    - rewrite PidFacts.step_defined in Hreturns by assumption.
      cbn [snd] in Hreturns. injection Hreturns as <-.
      unfold lagged_output. rewrite Hp, Hi, Hd. lra.
    - rewrite PidFacts.step_raises in Hreturns by assumption.
      discriminate. }
  split; [exact Hc | intros H0; rewrite Hc, H0; ring].
Qed.

Lemma proportional_only_output_witness :
  snd (step 3 true (after [(1, true); (2, false)] (init 0.1 1.0 0.0 0.0 0.0)))
  = Ok (lagged_output
          (after [(1, true); (2, false)] (init 0.1 1.0 0.0 0.0 0.0)) 3)
  /\ lagged_output
       (after [(1, true); (2, false)] (init 0.1 1.0 0.0 0.0 0.0)) 3
     = 1.0 * 3.
Proof.
  assert (H : snd (step 3 true
                     (after [(1, true); (2, false)]
                        (init 0.1 1.0 0.0 0.0 0.0)))
              = Ok (lagged_output
                      (after [(1, true); (2, false)]
                         (init 0.1 1.0 0.0 0.0 0.0)) 3)).
  { rewrite PidFacts.step_defined; [reflexivity | ]. left.
    destruct (PidFacts.after_keeps_parameters [(1, true); (2, false)]
                (init 0.1 1.0 0.0 0.0 0.0)) as [_ Hdt].
    rewrite Hdt. simpl. lra. }
  split; [exact H | ].
  exact (proj1 (proportional_only_output 0.1 1.0 0.0
                  [(1, true); (2, false)] 3 _ true H)).
Defined.

Lemma commit_fields (self : t) (error integral : R) :
  _dt (commit self error integral) = _dt self
  /\ _integral_discounting (commit self error integral)
     = _integral_discounting self
  /\ _error_integral (commit self error integral) = integral.
Proof. repeat split. Qed.

Lemma integral_stays_zero (history : list (R * bool)) (self : t) :
  _dt self = 0 -> _error_integral self = 0 ->
  _error_integral (after history self) = 0.
Proof.
  revert self.
  induction history as [ | [error update] rest IH]; intros self Hdt HI;
    [exact HI | ].
  cbn [after]. destruct (step_state self error update) as [-> | [_ ->]].
  - apply IH; assumption.
  - apply IH; [exact Hdt | ].
    cbn [commit _error_integral]. unfold candidate_integral.
    rewrite Hdt, HI. ring.
Qed.

Lemma integral_after_commits (errors : list R) (self : t) :
  _dt self <> 0 ->
  _error_integral (after (committing errors) self)
  = _error_integral self
    * (1 - _integral_discounting self) ^ List.length errors
    + _dt self * discounted_sum (_integral_discounting self) errors.
Proof.
  revert self.
  induction errors as [ | error rest IH]; intros self Hdt.
  - cbn [committing map after List.length discounted_sum]. simpl. ring.
  - unfold committing. cbn [map after]. fold (committing rest).
    rewrite PidFacts.step_defined by (left; exact Hdt). cbn [fst].
    rewrite IH by exact Hdt.
    cbn [commit _error_integral _dt _integral_discounting
         List.length discounted_sum].
    unfold candidate_integral. simpl pow. ring.
Qed.

Lemma discounted_sum_plain (errors : list R) :
  discounted_sum 0 errors = np_sum errors.
Proof.
  induction errors as [ | error rest IH]; [reflexivity | ].
  cbn [discounted_sum np_sum fold_right]. fold (np_sum rest).
  rewrite IH, Rminus_0_r, pow1. ring.
Qed.

(** X13: after the calls [step(e1)], ..., [step(en)] on a fresh controller
    the stored error integral is the timestep times the sum of the errors,
    each weighted by [1 - discounting] to the number of later errors;
    without discounting it is the timestep times the plain sum. *)
Theorem integral_closed_form
    (unit_time_per_step proportional integral derivative discounting : R)
    (errors : list R) :
  _error_integral
    (after (committing errors)
       (init unit_time_per_step proportional integral derivative
          discounting))
  = unit_time_per_step * discounted_sum discounting errors
  /\ _error_integral
       (after (committing errors)
          (init unit_time_per_step proportional integral derivative 0))
     = unit_time_per_step * np_sum errors.
Proof.
  assert (Hform : forall g,
             _error_integral
               (after (committing errors)
                  (init unit_time_per_step proportional integral
                     derivative g))
             = unit_time_per_step * discounted_sum g errors).
  { intros g. destruct (Req_dec_T unit_time_per_step 0) as [Hz | Hnz].
    - rewrite integral_stays_zero; [rewrite Hz; ring | exact Hz | ].
      reflexivity.
    - rewrite integral_after_commits by exact Hnz.
      cbn [init _error_integral _dt _integral_discounting]. ring. }
  split; [apply Hform | ].
  rewrite Hform, discounted_sum_plain. reflexivity.
Qed.

Lemma integral_stays_bounded (bound : R) (history : list (R * bool))
    (self : t) :
  0 < _integral_discounting self <= 1 ->
  errors_within bound history ->
  Rabs (_error_integral self)
    <= bound * Rabs (_dt self) / _integral_discounting self ->
  Rabs (_error_integral (after history self))
    <= bound * Rabs (_dt self) / _integral_discounting self.
Proof.
  revert self.
  induction history as [ | [error update] rest IH];
    intros self Hg Hwithin HI; [exact HI | ].
  inversion Hwithin as [ | call calls Herr Hrest]; subst.
  cbn [fst] in Herr. cbn [after].
  destruct (step_state self error update) as [-> | [_ ->]].
  - apply IH; assumption.
  - destruct (commit_fields self error (candidate_integral self error))
      as (Hdt & Hdisc & Hint).
    rewrite <- Hdt, <- Hdisc.
    apply IH; rewrite ?Hdisc, ?Hdt, ?Hint; [exact Hg | exact Hrest | ].
    unfold candidate_integral.
    set (g := _integral_discounting self) in *.
    set (B := bound * Rabs (_dt self) / g) in *.
    assert (HgB : g * B = bound * Rabs (_dt self))
      by (unfold B; field; lra).
    pose proof (Rabs_triang (_error_integral self * (1 - g))
                  (error * _dt self)) as Htri.
    rewrite !Rabs_mult in Htri.
    rewrite (Rabs_pos_eq (1 - g)) in Htri by lra.
    pose proof (Rabs_pos (_dt self)) as Hdtpos.
    pose proof (Rabs_pos (_error_integral self)) as HIpos.
    assert (H1 : Rabs (_error_integral self) * (1 - g) <= B * (1 - g))
      by (apply Rmult_le_compat_r; lra).
    assert (H2 : Rabs error * Rabs (_dt self) <= bound * Rabs (_dt self))
      by (apply Rmult_le_compat_r; assumption).
    lra.
Qed.

(** X14: with a discounting in (0, 1] the stored error integral cannot
    wind up: if all errors of a history are at most [bound] in absolute
    value, the integral is at most [bound * |dt| / discounting] in absolute
    value. *)
Theorem discounting_bounds_integral
    (unit_time_per_step proportional integral derivative discounting : R)
    (bound : R) (history : list (R * bool))
    (Hdisc : 0 < discounting <= 1) (Hbound : 0 <= bound)
    (Hwithin : errors_within bound history) :
  Rabs (_error_integral
          (after history
             (init unit_time_per_step proportional integral derivative
                discounting)))
  <= bound * Rabs unit_time_per_step / discounting.
Proof.
  apply (integral_stays_bounded bound history
           (init unit_time_per_step proportional integral derivative
              discounting)); [exact Hdisc | exact Hwithin | ].
  cbn [init _error_integral _dt _integral_discounting].
  rewrite Rabs_R0.
  apply Rmult_le_pos;
    [apply Rmult_le_pos; [exact Hbound | apply Rabs_pos]
    | apply Rlt_le, Rinv_0_lt_compat; lra].
Qed.

Lemma discounting_bounds_integral_witness :
  0 < 0.5 <= 1 /\ 0 <= 2
  /\ errors_within 2 [(2, true); (-1, false); (2, true)]
  /\ Rabs (_error_integral
             (after [(2, true); (-1, false); (2, true)]
                (init 0.1 0.5 0.05 0.02 0.5)))
     <= 2 * Rabs 0.1 / 0.5.
Proof.
  assert (Hd : 0 < 0.5 <= 1) by lra.
  assert (Hb : 0 <= 2) by lra.
  assert (Hw : errors_within 2 [(2, true); (-1, false); (2, true)]).
  { unfold errors_within. repeat constructor; cbn [fst];
      unfold Rabs; destruct (Rcase_abs _); lra. }
  split; [exact Hd | ]. split; [exact Hb | ]. split; [exact Hw | ].
  exact (discounting_bounds_integral 0.1 0.5 0.05 0.02 0.5 2 _ Hd Hb Hw).
Defined.

End PidHistoryFacts.

(** ** The turning radius as a circle *)

Module TurningFacts.

(** X15: for a non-zero lateral offset the turning radius is a positive
    number [r] such that the circle of radius [r] around the point at
    distance [r] to the side of the target passes through the origin and
    through the target; it is at least half the lateral offset, and it
    scales with the target. *)
Theorem turning_radius_is_arc (x y : R) (Hx : x <> 0) :
  exists r : R,
    _turning_radius_to x y = Fin r
    /\ 0 < r
    /\ (Rabs x - r) ^ 2 + y ^ 2 = r ^ 2
    /\ Rabs x / 2 <= r
    /\ forall k : R,
         k <> 0 -> _turning_radius_to (k * x) (k * y) = Fin (Rabs k * r).
Proof.
  pose proof (Rabs_pos_lt x Hx) as Hpos.
  assert (Hsq : Rabs x * Rabs x = x * x)
    by (unfold Rabs; destruct (Rcase_abs x); ring).
  exists ((x ^ 2 + y ^ 2) / (2 * Rabs x)).
  set (r := (x ^ 2 + y ^ 2) / (2 * Rabs x)).
  assert (Hr : r * (2 * Rabs x) = x ^ 2 + y ^ 2)
    by (unfold r; field; lra).
  pose proof (pow2_ge_0 y) as Hy.
  split; [apply turning_radius_nonzero; exact Hx | ].
  split; [ | split; [ | split]].
  - unfold r. apply Rdiv_lt_0_compat; nra.
  - nra.
  - nra.
  - intros k Hk.
    rewrite turning_radius_nonzero
      by (apply Rmult_integral_contrapositive_currified; assumption).
    f_equal. rewrite Rabs_mult.
    pose proof (Rabs_pos_lt k Hk) as Hkpos.
    assert (Hksq : Rabs k * Rabs k = k * k)
      by (unfold Rabs; destruct (Rcase_abs k); ring).
    unfold r.
    replace ((k * x) ^ 2 + (k * y) ^ 2)
      with (Rabs k * Rabs k * (x ^ 2 + y ^ 2)) by (rewrite Hksq; ring).
    field. lra.
Qed.

Lemma turning_radius_is_arc_witness :
  3 <> 0
  /\ exists r : R,
       _turning_radius_to 3 4 = Fin r
       /\ 0 < r
       /\ (Rabs 3 - r) ^ 2 + 4 ^ 2 = r ^ 2
       /\ Rabs 3 / 2 <= r
       /\ forall k : R,
            k <> 0 -> _turning_radius_to (k * 3) (k * 4) = Fin (Rabs k * r).
Proof.
  assert (H : 3 <> 0) by lra.
  split; [exact H | exact (turning_radius_is_arc 3 4 H)].
Defined.

End TurningFacts.

(** ** The interpolator along the polyline *)

Module PathFacts.
Import InterpolationSpec GeometrySpec PathSpec.

(** The loop body overwrites [prev_pos] and [dist] before it reads them. *)
Lemma walk_cons_inputs (waypoint : point) (rest : list point)
    (meters total_dist : R) (prev_pos prev_pos' cur_pos : point)
    (dist dist' : option R) :
  walk (waypoint :: rest) meters total_dist prev_pos cur_pos dist
  = walk (waypoint :: rest) meters total_dist prev_pos' cur_pos dist'.
Proof. rewrite !InterpolationFacts.walk_cons. reflexivity. Qed.

Lemma final_segment_snd (waypoints : list point) :
  forall prev_pos prev_pos' cur_pos : point,
    snd (final_segment prev_pos cur_pos waypoints)
    = snd (final_segment prev_pos' cur_pos waypoints).
Proof.
  destruct waypoints as [ | waypoint rest]; intros; reflexivity.
Qed.

(** The loop passes the waypoints that lie before the distance. *)
Lemma walk_skip (pre : list point) (waypoint : point) (rest : list point)
    (meters : R) :
  forall (total_dist : R) (prev_pos cur_pos : point) (dist : option R),
    total_dist + path_length cur_pos pre < meters ->
    walk (pre ++ waypoint :: rest) meters total_dist prev_pos cur_pos dist
    = walk (waypoint :: rest) meters (total_dist + path_length cur_pos pre)
        prev_pos (snd (final_segment prev_pos cur_pos pre)) dist.
Proof.
  induction pre as [ | p pre IH];
    intros total_dist prev_pos cur_pos dist Hfar.
  - cbn [app path_length final_segment snd]. rewrite Rplus_0_r.
    reflexivity.
  - cbn [app]. rewrite InterpolationFacts.walk_cons.
    pose proof (InterpolationFacts.path_length_nonneg pre p) as Hpre.
    cbn [path_length] in Hfar |- *.
    destruct (Rge_dec (total_dist + norm (psub p cur_pos)) meters)
      as [Hge | _]; [lra | ].
    rewrite IH by lra. cbn [final_segment].
    rewrite (final_segment_snd pre cur_pos prev_pos p).
    rewrite Rplus_assoc.
    apply walk_cons_inputs.
Qed.

Lemma psub_origin (w : point) : psub w origin = w.
Proof. destruct w as [x y]. unfold psub, origin. cbn. f_equal; ring. Qed.

Lemma path_length_app (pre : list point) (waypoint : point) :
  forall cur_pos : point,
    path_length cur_pos (pre ++ [waypoint])
    = path_length cur_pos pre
      + norm (psub waypoint (snd (final_segment cur_pos cur_pos pre))).
Proof.
  induction pre as [ | p pre IH]; intros cur_pos.
  - cbn [app path_length final_segment snd]. ring.
  - cbn [app path_length final_segment]. rewrite IH.
    rewrite (final_segment_snd pre cur_pos p p). ring.
Qed.

(** Within the polyline: the segment that reaches the distance is
    interpolated. *)
Lemma interpolate_within (pre rest : list point) (waypoint : point)
    (meters : R) :
  total_length pre < meters ->
  meters <= total_length pre + norm (psub waypoint (last_waypoint pre)) ->
  _interpolate_waypoint_n_meters_ahead (pre ++ waypoint :: rest) meters
  = Ok (Some (towards (last_waypoint pre) waypoint
                (meters - total_length pre)))
  /\ 0 < norm (psub waypoint (last_waypoint pre)).
Proof.
  intros Hlo Hhi. unfold total_length, last_waypoint in *.
  assert (Hpos : 0 < norm (psub waypoint
                              (snd (final_segment origin origin pre))))
    by lra.
  split; [ | exact Hpos].
  unfold _interpolate_waypoint_n_meters_ahead.
  rewrite walk_skip by (fold origin; lra).
  fold origin. rewrite InterpolationFacts.walk_cons.
  destruct (Rge_dec _ meters) as [_ | Hn]; [ | lra].
  rewrite InterpolationFacts.offset_along_defined by lra.
  unfold towards.
  apply InterpolationFacts.returned_point_eq; apply f_equal; ring.
Qed.

(** X16: the interpolator raises exactly for an empty waypoint array, and
    then [UnboundLocalError]: the statements after the loop read [dist],
    which the loop has not assigned. *)
Theorem interpolation_raises_iff_empty (waypoints : list point)
    (meters : R) :
  ((exists e, _interpolate_waypoint_n_meters_ahead waypoints meters = Raise e)
   <-> waypoints = [])
  /\ _interpolate_waypoint_n_meters_ahead [] meters
     = Raise UnboundLocalError.
Proof.
  split; [ | reflexivity]. split.
  - intros [e He]. destruct waypoints as [ | w rest]; [reflexivity | ].
    destruct (VehicleFacts.interpolate_returns (w :: rest) meters)
      as [xy Hxy]; [discriminate | ].
    rewrite Hxy in He. discriminate.
  - intros ->. exists UnboundLocalError. reflexivity.
Qed.

(** X17: a distance that is reached within a segment gives the point of
    that segment at the remaining distance from its start. *)
Theorem interpolation_on_segment (pre rest : list point) (waypoint : point)
    (meters : R)
    (Hlo : total_length pre < meters)
    (Hhi : meters
           <= total_length pre + norm (psub waypoint (last_waypoint pre))) :
  exists p : point,
    _interpolate_waypoint_n_meters_ahead (pre ++ waypoint :: rest) meters
    = Ok (Some p)
    /\ norm (psub p (last_waypoint pre)) = meters - total_length pre
    /\ exists t : R,
         0 < t <= 1
         /\ p = (fst (last_waypoint pre)
                 + t * fst (psub waypoint (last_waypoint pre)),
                 snd (last_waypoint pre)
                 + t * snd (psub waypoint (last_waypoint pre))).
Proof.
  destruct (interpolate_within pre rest waypoint meters Hlo Hhi)
    as [Hret Hpos].
  set (a := last_waypoint pre) in *.
  set (s := meters - total_length pre) in *.
  assert (Hs : 0 < s) by (unfold s; lra).
  pose proof (InterpolationFacts.norm_sqr (psub waypoint a)) as Hn.
  exists (towards a waypoint s). split; [exact Hret | ]. split.
  - apply InterpolationFacts.norm_eq; [lra | ].
    unfold towards.
    set (n := norm (psub waypoint a)) in *.
    set (dx := fst (psub waypoint a)) in *.
    set (dy := snd (psub waypoint a)) in *.
    unfold psub. cbn [fst snd].
    replace ((fst a + dx / n * s - fst a) ^ 2
             + (snd a + dy / n * s - snd a) ^ 2)
      with (s * s * ((dx ^ 2 + dy ^ 2) / (n * n))) by (field; lra).
    rewrite <- Hn. field. lra.
  - exists (s / norm (psub waypoint a)). split.
    + split; [apply Rdiv_lt_0_compat; lra | ].
      apply (Rmult_le_reg_r (norm (psub waypoint a))); [exact Hpos | ].
      replace (s / norm (psub waypoint a) * norm (psub waypoint a))
        with s by (field; lra).
      unfold s. lra.
    + unfold towards. apply injective_projections; cbn [fst snd];
        field; lra.
Qed.

Lemma interpolation_on_segment_witness :
  total_length [(1, 0)] < 2
  /\ 2 <= total_length [(1, 0)] + norm (psub (1, 3) (last_waypoint [(1, 0)]))
  /\ exists p : point,
       _interpolate_waypoint_n_meters_ahead ([(1, 0)] ++ (1, 3) :: []) 2
       = Ok (Some p)
       /\ norm (psub p (last_waypoint [(1, 0)])) = 2 - total_length [(1, 0)]
       /\ exists t : R,
            0 < t <= 1
            /\ p = (fst (last_waypoint [(1, 0)])
                    + t * fst (psub (1, 3) (last_waypoint [(1, 0)])),
                    snd (last_waypoint [(1, 0)])
                    + t * snd (psub (1, 3) (last_waypoint [(1, 0)]))).
Proof.
  assert (Hlen : total_length [(1, 0)] = 1).
  { rewrite InterpolationFacts.total_length_single.
    apply InterpolationFacts.norm_eq;
      [lra | unfold psub, origin; cbn [fst snd]; lra]. }
  assert (Hseg : norm (psub (1, 3) (last_waypoint [(1, 0)])) = 3).
  { unfold last_waypoint. cbn [final_segment snd].
    apply InterpolationFacts.norm_eq;
      [lra | unfold psub; cbn [fst snd]; lra]. }
  assert (Hlo : total_length [(1, 0)] < 2) by lra.
  assert (Hhi : 2 <= total_length [(1, 0)]
                     + norm (psub (1, 3) (last_waypoint [(1, 0)]))) by lra.
  split; [exact Hlo | ]. split; [exact Hhi | ].
  exact (interpolation_on_segment [(1, 0)] [] (1, 3) 2 Hlo Hhi).
Defined.

(** X18: at the cumulative distance of a waypoint the interpolator returns
    that waypoint, provided the segment that leads to it has a length. *)
Theorem interpolation_hits_waypoint (pre rest : list point)
    (waypoint : point) (Hseg : waypoint <> last_waypoint pre) :
  _interpolate_waypoint_n_meters_ahead (pre ++ waypoint :: rest)
    (total_length (pre ++ [waypoint]))
  = Ok (Some waypoint).
Proof.
  pose proof (InterpolationFacts.norm_psub_pos _ _ Hseg) as Hpos.
  assert (Hlen : total_length (pre ++ [waypoint])
                 = total_length pre
                   + norm (psub waypoint (last_waypoint pre)))
    by (unfold total_length, last_waypoint; apply path_length_app).
  rewrite Hlen.
  destruct (interpolate_within pre rest waypoint
              (total_length pre + norm (psub waypoint (last_waypoint pre))))
    as [-> _]; [lra | lra | ].
  unfold towards. destruct waypoint as [wx wy].
  set (a := last_waypoint pre) in *. unfold psub in *. cbn [fst snd] in *.
  apply InterpolationFacts.returned_point_eq; field; lra.
Qed.

Lemma interpolation_hits_waypoint_witness :
  (1, 3) <> last_waypoint [(1, 0)]
  /\ _interpolate_waypoint_n_meters_ahead ([(1, 0)] ++ (1, 3) :: [(5, 3)])
       (total_length ([(1, 0)] ++ [(1, 3)]))
     = Ok (Some (1, 3)).
Proof.
  assert (H : (1, 3) <> last_waypoint [(1, 0)]).
  { unfold last_waypoint. cbn [final_segment snd].
    intros H. injection H as H. lra. }
  split; [exact H | ].
  exact (interpolation_hits_waypoint [(1, 0)] [(5, 3)] (1, 3) H).
Defined.

(** Without a repeated position every segment has a length, and whichever
    segment is selected the division is defined. *)
Lemma walk_distinct (waypoints : list point) (meters : R) :
  forall (total_dist : R) (prev_pos cur_pos : point) (dist : option R),
    distinct_steps cur_pos waypoints ->
    waypoints <> [] \/ (exists d, dist = Some d /\ d <> 0) ->
    exists p,
      walk waypoints meters total_dist prev_pos cur_pos dist = Ok (Some p).
Proof.
  induction waypoints as [ | waypoint rest IH];
    intros total_dist prev_pos cur_pos dist Hd Hne.
  - destruct Hne as [Hne | [d [-> Hd0]]]; [now elim Hne | ].
    cbn [walk]. rewrite InterpolationFacts.offset_along_defined by exact Hd0.
    eexists. reflexivity.
  - destruct Hd as [Hw Hrest].
    pose proof (InterpolationFacts.norm_psub_pos _ _ Hw) as Hpos.
    rewrite InterpolationFacts.walk_cons.
    destruct (Rge_dec _ meters) as [_ | _].
    + rewrite InterpolationFacts.offset_along_defined by lra.
      eexists. reflexivity.
    + apply IH; [exact Hrest | ]. right.
      exists (norm (psub waypoint cur_pos)). split; [reflexivity | lra].
Qed.

(** Waypoints after the distance are not read. *)
Lemma walk_app (waypoints extra : list point) (meters : R) :
  forall (total_dist : R) (prev_pos cur_pos : point) (dist : option R),
    waypoints <> [] ->
    meters <= total_dist + path_length cur_pos waypoints ->
    walk (waypoints ++ extra) meters total_dist prev_pos cur_pos dist
    = walk waypoints meters total_dist prev_pos cur_pos dist.
Proof.
  induction waypoints as [ | waypoint rest IH];
    intros total_dist prev_pos cur_pos dist Hne Hm; [now elim Hne | ].
  cbn [app]. rewrite !InterpolationFacts.walk_cons.
  destruct (Rge_dec _ meters) as [_ | Hlt]; [reflexivity | ].
  cbn [path_length] in Hm.
  destruct rest as [ | next rest].
  - cbn [path_length] in Hm. lra.
  - apply IH; [discriminate | lra].
Qed.

(** X19: the interpolator returns NaN coordinates only for a polyline in
    which some waypoint repeats the position before it (the first one the
    origin): without such a repetition it returns a point of real
    coordinates at every distance. *)
Theorem interpolation_defined_without_repeats (waypoints : list point)
    (meters : R)
    (Hne : waypoints <> [])
    (Hdistinct : distinct_steps origin waypoints) :
  exists p : point,
    _interpolate_waypoint_n_meters_ahead waypoints meters = Ok (Some p).
Proof.
  unfold _interpolate_waypoint_n_meters_ahead.
  apply walk_distinct; [exact Hdistinct | left; exact Hne].
Qed.

Lemma interpolation_defined_without_repeats_witness :
  [(1, 0); (1, 3)] <> []
  /\ distinct_steps origin [(1, 0); (1, 3)]
  /\ exists p : point,
       _interpolate_waypoint_n_meters_ahead [(1, 0); (1, 3)] 7 = Ok (Some p).
Proof.
  assert (Hne : [(1, 0); (1, 3)] <> ([] : list point)) by discriminate.
  assert (Hd : distinct_steps origin [(1, 0); (1, 3)]).
  { cbn [distinct_steps]. unfold origin.
    repeat split; intros H; injection H as H; lra. }
  split; [exact Hne | ]. split; [exact Hd | ].
  exact (interpolation_defined_without_repeats [(1, 0); (1, 3)] 7 Hne Hd).
Defined.

(** X20: a distance of at most the length of the first segment, negative
    distances included, gives the multiple [meters / |w|] of the first
    waypoint [w]: a negative distance is extrapolated backwards through
    the origin, and the point lies at distance [|meters|] from it. *)
Theorem interpolation_along_first_segment (waypoint : point)
    (rest : list point) (meters : R)
    (Hw : waypoint <> origin)
    (Hm : meters <= norm waypoint) :
  _interpolate_waypoint_n_meters_ahead (waypoint :: rest) meters
  = Ok (Some (scale (meters / norm waypoint) waypoint))
  /\ norm (scale (meters / norm waypoint) waypoint) = Rabs meters.
Proof.
  pose proof (InterpolationFacts.norm_psub_pos _ _ Hw) as Hpos.
  rewrite psub_origin in Hpos.
  pose proof (InterpolationFacts.norm_sqr waypoint) as Hn.
  split.
  - unfold _interpolate_waypoint_n_meters_ahead.
    rewrite InterpolationFacts.walk_cons.
    fold origin. rewrite psub_origin.
    destruct (Rge_dec _ meters) as [_ | Hlt]; [ | lra].
    rewrite InterpolationFacts.offset_along_defined by lra.
    unfold scale, origin. cbn [fst snd].
    apply InterpolationFacts.returned_point_eq; field; lra.
  - apply InterpolationFacts.norm_eq; [apply Rabs_pos | ].
    unfold scale. cbn [fst snd].
    replace (Rabs meters * Rabs meters) with (meters * meters)
      by (unfold Rabs; destruct (Rcase_abs meters); ring).
    replace ((meters / norm waypoint * fst waypoint) ^ 2
             + (meters / norm waypoint * snd waypoint) ^ 2)
      with (meters * meters
            * ((fst waypoint ^ 2 + snd waypoint ^ 2)
               / (norm waypoint * norm waypoint)))
      by (field; lra).
    rewrite <- Hn. field. lra.
Qed.

Lemma interpolation_along_first_segment_witness :
  (3, 4) <> origin
  /\ -10 <= norm (3, 4)
  /\ _interpolate_waypoint_n_meters_ahead ((3, 4) :: []) (-10)
     = Ok (Some (scale (-10 / norm (3, 4)) (3, 4)))
  /\ norm (scale (-10 / norm (3, 4)) (3, 4)) = Rabs (-10).
Proof.
  assert (Hw : (3, 4) <> origin)
    by (unfold origin; intros H; injection H as H; lra).
  assert (Hm : -10 <= norm (3, 4)).
  { pose proof (InterpolationFacts.norm_nonneg (3, 4)). lra. }
  split; [exact Hw | ]. split; [exact Hm | ].
  exact (interpolation_along_first_segment (3, 4) [] (-10) Hw Hm).
Defined.

(** X21: the interpolator reads the waypoints only up to the requested
    distance: waypoints appended to a polyline that already reaches the
    distance do not change the result. *)
Theorem interpolation_ignores_later_waypoints (waypoints extra : list point)
    (meters : R)
    (Hne : waypoints <> [])
    (Hreach : meters <= total_length waypoints) :
  _interpolate_waypoint_n_meters_ahead (waypoints ++ extra) meters
  = _interpolate_waypoint_n_meters_ahead waypoints meters.
Proof.
  unfold _interpolate_waypoint_n_meters_ahead.
  apply walk_app; [exact Hne | ].
  unfold total_length, origin in Hreach. lra.
Qed.

Lemma interpolation_ignores_later_waypoints_witness :
  [(1, 0)] <> []
  /\ 1 <= total_length [(1, 0)]
  /\ _interpolate_waypoint_n_meters_ahead ([(1, 0)] ++ [(1, 3); (5, 3)]) 1
     = _interpolate_waypoint_n_meters_ahead [(1, 0)] 1.
Proof.
  assert (Hne : [(1, 0)] <> ([] : list point)) by discriminate.
  assert (Hlen : 1 <= total_length [(1, 0)]).
  { rewrite InterpolationFacts.total_length_single.
    right. symmetry. apply InterpolationFacts.norm_eq;
      [lra | unfold psub, origin; cbn [fst snd]; lra]. }
  split; [exact Hne | ]. split; [exact Hlen | ].
  exact (interpolation_ignores_later_waypoints [(1, 0)] [(1, 3); (5, 3)] 1
           Hne Hlen).
Defined.

End PathFacts.

(** ** Calls of the vehicle controller *)

Module DrivingFacts.
Import VehicleController VehicleSpec DrivingSpec.

(** A PID step either returns for both values of [update] or raises for
    both. *)
Lemma pid_step_outcome (pid : PidController.t) (error : R) :
  (forall update : bool,
     PidController.step error update pid
     = ((if update
         then PidController.commit pid error
                (PidSpec.candidate_integral pid error)
         else pid),
        Ok (PidSpec.lagged_output pid error)))
  \/ (forall update : bool,
        PidController.step error update pid = (pid, Raise ZeroDivisionError)).
Proof.
  destruct (PidFacts.divides_dec pid) as [Hd | Hd].
  - left. intros update. apply PidFacts.step_defined. exact Hd.
  - right. intros update. apply PidFacts.step_raises. exact Hd.
Qed.

Lemma set_controls_same (self : t) :
  set_brake_control (set_speed_control self (_speed_control self))
    (_brake_control self) = self.
Proof. destruct self. reflexivity. Qed.

Lemma set_brake_same (self : t) :
  set_brake_control self (_brake_control self) = self.
Proof. destruct self. reflexivity. Qed.

Lemma set_speed_same (self : t) :
  set_speed_control self (_speed_control self) = self.
Proof. destruct self. reflexivity. Qed.

(** With a [logger] an empty waypoint array stops the call in the
    interpolator. *)
Lemma step_interpolation_raises (injected : list string) (state : TickState)
    (waypoints : list point) (update_pids : bool) (self : t) (e : py_exn) :
  logger_bound injected ->
  _interpolate_waypoint_n_meters_ahead (map swap_xy waypoints) 5.0
  = Raise e ->
  step injected state waypoints update_pids self = (self, Raise e).
Proof.
  intros Hlog Hxy. unfold logger_bound in Hlog.
  unfold step, bind, get, lookup_global, call.
  rewrite Hlog, Hxy. reflexivity.
Qed.

Lemma after_calls_well_configured (injected : list string)
    (calls : list (TickState * list point * bool)) :
  forall self : t,
    well_configured self -> well_configured (after_calls injected calls self).
Proof.
  induction calls as [ | [[state waypoints] update_pids] rest IH];
    intros self Hwf; [exact Hwf | ].
  cbn [after_calls]. apply IH.
  apply VehicleFacts.step_keeps_well_configured. exact Hwf.
Qed.

(** X22: a call with [update_pids=False] leaves the controller as it was,
    whether it returns or raises, and its outcome is that of the call with
    [update_pids=True]: the two PID controllers are separate objects, and
    each is stepped at most once in a call. *)
Theorem preview_call_keeps_controller (injected : list string)
    (state : TickState) (waypoints : list point) (self : t) :
  fst (step injected state waypoints false self) = self
  /\ snd (step injected state waypoints false self)
     = snd (step injected state waypoints true self).
Proof.
  unfold step, bind, get, lookup_global, call, speed_control_step,
    brake_control_step, zoom, ret.
  destruct (resolves injected "logger"); [ | split; reflexivity].
  destruct (_interpolate_waypoint_n_meters_ahead _ 5.0) as [xy | e];
    [ | split; reflexivity].
  destruct (Rlt_dec _ 3.5) as [Hslow | Hfast].
  - destruct (pid_step_outcome (_brake_control self) (speed state))
      as [H | H]; rewrite !H; cbn [fst snd];
      (split; [apply set_brake_same | reflexivity]).
  - set (acceleration :=
           target_speed_of self (map swap_xy waypoints) - speed state).
    destruct (pid_step_outcome (_speed_control self) acceleration)
      as [Hs | Hs]; rewrite !Hs; cbn [fst snd _brake_control
                                      set_speed_control];
      [ | split; [apply set_speed_same | reflexivity]].
    destruct (pid_step_outcome (_brake_control self) (- acceleration))
      as [Hb | Hb]; rewrite !Hb; cbn [fst snd];
      (split; [apply set_controls_same | reflexivity]).
Qed.

(** A PID step that returns has the lagged output and, when it updates,
    commits the error and the candidate integral. *)
Lemma pid_step_ok (pid pid' : PidController.t) (error control : R)
    (update : bool) :
  PidController.step error update pid = (pid', Ok control) ->
  control = PidSpec.lagged_output pid error
  /\ pid' = (if update
             then PidController.commit pid error
                    (PidSpec.candidate_integral pid error)
             else pid).
Proof.
  destruct (pid_step_outcome pid error) as [H | H]; rewrite H;
    [ | discriminate].
  intros Heq. split; congruence.
Qed.

(** X23: for a well-configured controller with a [logger] the call raises
    exactly when the waypoint array is empty: then the interpolator raises
    [UnboundLocalError] before a PID controller is stepped, and the
    controller stays as it was; otherwise an actuation is returned. *)
Theorem call_raises_iff_no_waypoints (injected : list string)
    (state : TickState) (waypoints : list point) (update_pids : bool)
    (self : t)
    (Hlog : logger_bound injected)
    (Hwf : well_configured self) :
  (waypoints = []
   /\ step injected state waypoints update_pids self
      = (self, Raise UnboundLocalError))
  \/ (waypoints <> []
      /\ exists (self' : t) (out : VehicleControl),
           step injected state waypoints update_pids self = (self', Ok out)).
Proof.
  destruct waypoints as [ | waypoint rest].
  - left. split; [reflexivity | ].
    apply step_interpolation_raises; [exact Hlog | reflexivity].
  - right. split; [discriminate | ].
    apply VehicleFacts.step_returns; [exact Hlog | discriminate | exact Hwf].
Qed.

Lemma call_raises_iff_no_waypoints_witness :
  logger_bound with_logger
  /\ well_configured fresh_controller
  /\ (([] : list point) = []
      /\ step with_logger {| speed := 2 |} [] true fresh_controller
         = (fresh_controller, Raise UnboundLocalError)
      \/ ([] : list point) <> []
         /\ exists (self' : t) (out : VehicleControl),
              step with_logger {| speed := 2 |} [] true fresh_controller
              = (self', Ok out)).
Proof.
  assert (Hwf : well_configured fresh_controller)
    by (apply VehicleFacts.init_well_configured; [discriminate | lra]).
  split; [exact VehicleFacts.with_logger_bound | ].
  split; [exact Hwf | ].
  exact (call_raises_iff_no_waypoints with_logger {| speed := 2 |} [] true
           fresh_controller VehicleFacts.with_logger_bound Hwf).
Defined.

(** X24: a call that takes the near-stop branch steps the braking PID
    only, with the current speed as its error: the speed PID, and with it
    the throttle of later calls, is as it was before. *)
Theorem near_stop_steps_brake_only (injected : list string)
    (state : TickState) (waypoints : list point) (self : t)
    (Hlog : logger_bound injected)
    (Hne : waypoints <> [])
    (Hslow : near_stop self waypoints) :
  let self' := fst (step injected state waypoints true self) in
  self'
  = set_brake_control self
      (PidController.commit (_brake_control self) (speed state)
         (PidSpec.candidate_integral (_brake_control self) (speed state)))
  /\ _speed_control self' = _speed_control self
  /\ PidController._previous_error (_brake_control self')
     = Some (speed state).
Proof.
  destruct Hslow as [Hwf Hslow].
  destruct (VehicleFacts.well_configured_divides self Hwf) as [_ Hb].
  destruct (VehicleFacts.interpolate_returns (map swap_xy waypoints) 5.0)
    as [xy Hxy].
  { destruct waypoints; [now elim Hne | discriminate]. }
  cbv zeta.
  rewrite (VehicleFacts.step_near_stop _ _ _ _ _ _ _ _ Hlog Hxy Hslow
             (PidFacts.step_defined _ _ true Hb)).
  cbn [fst]. repeat split.
Qed.

Lemma near_stop_steps_brake_only_witness :
  logger_bound with_logger
  /\ [(0.25, 0)] <> []
  /\ near_stop fresh_controller [(0.25, 0)]
  /\ let self' :=
       fst (step with_logger {| speed := 2 |} [(0.25, 0)] true
              fresh_controller) in
     self'
     = set_brake_control fresh_controller
         (PidController.commit (_brake_control fresh_controller)
            (speed {| speed := 2 |})
            (PidSpec.candidate_integral (_brake_control fresh_controller)
               (speed {| speed := 2 |})))
     /\ _speed_control self' = _speed_control fresh_controller
     /\ PidController._previous_error (_brake_control self')
        = Some (speed {| speed := 2 |}).
Proof.
  assert (Hne : [(0.25, 0)] <> ([] : list point)) by discriminate.
  split; [exact VehicleFacts.with_logger_bound | ].
  split; [exact Hne | ].
  split; [exact VehicleFacts.slow_near_stop | ].
  exact (near_stop_steps_brake_only with_logger {| speed := 2 |}
           [(0.25, 0)] fresh_controller VehicleFacts.with_logger_bound Hne
           VehicleFacts.slow_near_stop).
Defined.

(** X25: a controller built by [__init__] with a non-zero step gap and
    timestep never divides by zero: after any sequence of calls, a call
    with a [logger] and a non-empty waypoint array returns an actuation,
    with throttle and brake within [0, 1]. *)
Theorem calls_after_init_return (injected : list string)
    (calls : list (TickState * list point * bool))
    (kinematic_bicycle : KinematicBicycle) (waypoint_step_gap : Z)
    (unit_time_per_step : R) (state : TickState) (waypoints : list point)
    (update_pids : bool)
    (Hlog : logger_bound injected)
    (Hgap : waypoint_step_gap <> 0%Z)
    (Hdt : unit_time_per_step <> 0)
    (Hne : waypoints <> []) :
  exists (self' : t) (out : VehicleControl),
    step injected state waypoints update_pids
      (after_calls injected calls
         (init kinematic_bicycle waypoint_step_gap unit_time_per_step))
    = (self', Ok out)
    /\ 0 <= throttle out <= 1
    /\ 0 <= brake out <= 1.
Proof.
  pose proof (after_calls_well_configured injected calls _
                (VehicleFacts.init_well_configured kinematic_bicycle _ _
                   Hgap Hdt)) as Hwf.
  destruct (VehicleFacts.step_returns injected state waypoints update_pids
              _ Hlog Hne Hwf) as (self' & out & Hrun).
  exists self', out. split; [exact Hrun | ].
  exact (VehicleFacts.throttle_brake_clamped _ _ _ _ _ _ _ Hwf Hrun).
Qed.

Lemma calls_after_init_return_witness :
  logger_bound with_logger
  /\ 5%Z <> 0%Z
  /\ 0.1 <> 0
  /\ [(0, 3); (0, 1)] <> []
  /\ exists (self' : t) (out : VehicleControl),
       step with_logger {| speed := 1 |} [(0, 3); (0, 1)] true
         (after_calls with_logger
            [({| speed := 0 |}, [(0.25, 0)], true);
             ({| speed := 3 |}, [], false)]
            (init (bicycle 3) 5 0.1))
       = (self', Ok out)
       /\ 0 <= throttle out <= 1
       /\ 0 <= brake out <= 1.
Proof.
  assert (Hgap : 5%Z <> 0%Z) by discriminate.
  assert (Hdt : 0.1 <> 0) by lra.
  assert (Hne : [(0, 3); (0, 1)] <> ([] : list point)) by discriminate.
  split; [exact VehicleFacts.with_logger_bound | ].
  split; [exact Hgap | ]. split; [exact Hdt | ]. split; [exact Hne | ].
  exact (calls_after_init_return with_logger
           [({| speed := 0 |}, [(0.25, 0)], true);
            ({| speed := 3 |}, [], false)]
           (bicycle 3) 5 0.1 {| speed := 1 |} [(0, 3); (0, 1)] true
           VehicleFacts.with_logger_bound Hgap Hdt Hne).
Defined.

Lemma norm_swapped (a b : point) :
  norm (psub (swap_xy a) (swap_xy b)) = norm (psub a b).
Proof.
  unfold norm, psub, swap_xy. cbn [fst snd]. f_equal. ring.
Qed.

Lemma norm_from_origin (a : point) :
  norm (psub (0, 0) (swap_xy a)) = norm a.
Proof.
  unfold norm, psub, swap_xy. cbn [fst snd]. f_equal. ring.
Qed.

(** X26: the target speed reads the first three waypoints only: it is the
    mean length of the three segments from the vehicle through them,
    divided by the time between two waypoints; further waypoints do not
    change it. *)
Theorem target_speed_from_three_waypoints (self : t) (w1 w2 w3 : point)
    (rest : list point)
    (Hfin : finite_target_speed self) :
  target_speed_of self (map swap_xy (w1 :: w2 :: w3 :: rest))
  = (norm w1 + norm (psub w1 w2) + norm (psub w2 w3)) / 3
    / (IZR (_waypoint_step_gap self) * _dt self)
  /\ target_kmh self (w1 :: w2 :: w3 :: rest)
     = target_kmh self [w1; w2; w3].
Proof.
  assert (Hthree : forall tail : list point,
            target_speed_of self (map swap_xy (w1 :: w2 :: w3 :: tail))
            = (norm w1 + norm (psub w1 w2) + norm (psub w2 w3)) / 3
              / (IZR (_waypoint_step_gap self) * _dt self)).
  { intros tail. unfold target_speed_of, mean.
    cbn [map tl].
    change (removelast ((0, 0) :: swap_xy w1 :: swap_xy w2 :: swap_xy w3
                          :: map swap_xy tail))
      with ((0, 0) :: swap_xy w1 :: swap_xy w2
              :: removelast (swap_xy w3 :: map swap_xy tail)).
    destruct (removelast (swap_xy w3 :: map swap_xy tail));
      cbn [combine map firstn fold_right List.length fst snd INR];
      rewrite norm_from_origin, !norm_swapped;
      unfold finite_target_speed in Hfin; field;
      (split; intros H; apply Hfin; rewrite H; ring). }
  split; [apply Hthree | ].
  unfold target_kmh. rewrite (Hthree rest), (Hthree []). reflexivity.
Qed.

Lemma target_speed_from_three_waypoints_witness :
  finite_target_speed fresh_controller
  /\ target_speed_of fresh_controller
       (map swap_xy ((1, 0) :: (2, 0) :: (3, 0) :: [(9, 9)]))
     = (norm (1, 0) + norm (psub (1, 0) (2, 0))
        + norm (psub (2, 0) (3, 0))) / 3
       / (IZR (_waypoint_step_gap fresh_controller) * _dt fresh_controller)
  /\ target_kmh fresh_controller ((1, 0) :: (2, 0) :: (3, 0) :: [(9, 9)])
     = target_kmh fresh_controller [(1, 0); (2, 0); (3, 0)].
Proof.
  assert (Hfin : finite_target_speed fresh_controller).
  { unfold finite_target_speed, fresh_controller, init.
    cbn [_waypoint_step_gap _dt]. lra. }
  split; [exact Hfin | ].
  exact (target_speed_from_three_waypoints fresh_controller (1, 0) (2, 0)
           (3, 0) [(9, 9)] Hfin).
Defined.

Lemma lagged_output_mirrored (a b : PidController.t) (error : R) :
  mirrored a b ->
  PidSpec.lagged_output b (- error) = - PidSpec.lagged_output a error.
Proof.
  intros (Hp & Hi & Hd & _ & Hdt & Hprev & Hint).
  unfold PidSpec.lagged_output, PidSpec.derivative_term.
  rewrite Hp, Hi, Hd, Hdt, Hprev, Hint.
  destruct (PidController._previous_error a) as [previous_error | ];
    cbn [option_map]; unfold Rdiv; ring.
Qed.

Lemma commit_mirrored (a b : PidController.t) (error : R) :
  mirrored a b ->
  mirrored
    (PidController.commit a error (PidSpec.candidate_integral a error))
    (PidController.commit b (- error)
       (PidSpec.candidate_integral b (- error))).
Proof.
  intros (Hp & Hi & Hd & Hg & Hdt & Hprev & Hint).
  unfold mirrored, PidSpec.candidate_integral. cbn.
  repeat split; try assumption.
  rewrite Hg, Hdt, Hint. ring.
Qed.

Lemma clip_exclusive (control : R) :
  clip control 0.0 1.0 = 0 \/ clip (- control) 0.0 1.0 = 0.
Proof.
  destruct (Rle_dec control 0) as [Hneg | Hpos].
  - left. VehicleFacts.clip_cases.
  - right. VehicleFacts.clip_cases.
Qed.

(** X27: as long as the two PID controllers mirror each other, which they
    do after [__init__], a call that takes the driving branch never returns
    throttle and brake together: the braking PID computes the opposite of
    the throttle PID, so one of the two clamped values is 0; and the
    controllers mirror each other after the call as well. *)
Theorem driving_throttle_excludes_brake (injected : list string)
    (state : TickState) (waypoints : list point) (update_pids : bool)
    (self self' : t) (out : VehicleControl)
    (Hmirrored : mirrored (_speed_control self) (_brake_control self))
    (Hfast : ~ target_kmh self waypoints < 3.5)
    (Hrun : step injected state waypoints update_pids self
            = (self', Ok out)) :
  (throttle out = 0 \/ brake out = 0)
  /\ mirrored (_speed_control self') (_brake_control self').
Proof.
  unfold target_kmh in Hfast. revert Hrun.
  unfold step, bind, get, lookup_global, call, speed_control_step,
    brake_control_step, zoom, ret.
  destruct (resolves injected "logger"); [ | discriminate].
  destruct (_interpolate_waypoint_n_meters_ahead _ 5.0) as [xy | e];
    [ | discriminate].
  destruct (Rlt_dec _ 3.5) as [Hslow | _]; [now elim Hfast | ].
  set (acceleration :=
         target_speed_of self (map swap_xy waypoints) - speed state).
  destruct (pid_step_outcome (_speed_control self) acceleration)
    as [Hs | Hs]; rewrite Hs; [ | discriminate].
  cbn [_brake_control set_speed_control].
  destruct (pid_step_outcome (_brake_control self) (- acceleration))
    as [Hb | Hb]; rewrite Hb; [ | discriminate].
  intros Heq. injection Heq as <- <-.
  cbn [throttle brake _speed_control _brake_control set_brake_control
       set_speed_control].
  split.
  - rewrite (lagged_output_mirrored _ _ acceleration Hmirrored).
    apply clip_exclusive.
  - destruct update_pids; [ | exact Hmirrored].
    apply commit_mirrored. exact Hmirrored.
Qed.

Lemma driving_throttle_excludes_brake_witness :
  mirrored (_speed_control fresh_controller)
    (_brake_control fresh_controller)
  /\ ~ target_kmh fresh_controller [(0, 3); (0, 1)] < 3.5
  /\ exists (self' : t) (out : VehicleControl),
       step with_logger {| speed := 0 |} [(0, 3); (0, 1)] true
         fresh_controller = (self', Ok out)
       /\ (throttle out = 0 \/ brake out = 0)
       /\ mirrored (_speed_control self') (_brake_control self').
Proof.
  assert (Hmirrored : mirrored (_speed_control fresh_controller)
                        (_brake_control fresh_controller)).
  { unfold mirrored, fresh_controller, init, PidController.init. cbn.
    repeat split. lra. }
  assert (Hfast : ~ target_kmh fresh_controller [(0, 3); (0, 1)] < 3.5).
  { unfold target_kmh. rewrite VehicleFacts.turning_target_speed. lra. }
  split; [exact Hmirrored | ]. split; [exact Hfast | ].
  do 2 eexists. split; [exact VehicleFacts.turning_run | ].
  exact (driving_throttle_excludes_brake _ _ _ _ _ _ _ Hmirrored Hfast
           VehicleFacts.turning_run).
Defined.

(** The interpolated point of a polyline on the forward axis lies on that
    axis. *)
Lemma offset_on_axis (cur_pos direction p : point) (dist along : R) :
  fst cur_pos = 0 -> fst direction = 0 ->
  offset_along cur_pos direction dist along = Some p ->
  fst p = 0.
Proof.
  intros Hc Hd. unfold offset_along.
  destruct (Req_dec_T dist 0) as [_ | _]; [discriminate | ].
  intros H. injection H as <-. cbn [fst]. rewrite Hc, Hd.
  unfold Rdiv. ring.
Qed.

Lemma walk_on_axis (waypoints : list point) (meters : R) :
  forall (total_dist : R) (prev_pos cur_pos p : point) (dist : option R),
    Forall (fun waypoint => fst waypoint = 0) waypoints ->
    fst prev_pos = 0 -> fst cur_pos = 0 ->
    walk waypoints meters total_dist prev_pos cur_pos dist = Ok (Some p) ->
    fst p = 0.
Proof.
  induction waypoints as [ | waypoint rest IH];
    intros total_dist prev_pos cur_pos p dist Hall Hprev Hcur.
  - cbn [walk]. destruct dist as [d | ]; [ | discriminate].
    intros H. injection H as H.
    apply (offset_on_axis _ _ _ _ _ Hcur) in H; [exact H | ].
    unfold psub. cbn [fst]. lra.
  - inversion Hall as [ | w l Hw Hrest]; subst.
    rewrite InterpolationFacts.walk_cons.
    destruct (Rge_dec _ meters) as [_ | _].
    + intros H. injection H as H.
      apply (offset_on_axis _ _ _ _ _ Hcur) in H; [exact H | ].
      unfold psub. cbn [fst]. lra.
    + apply IH; assumption.
Qed.

(** X28: on a path straight ahead (every waypoint with lateral coordinate
    zero, none repeating the position before it) a call in the driving
    branch returns the steering angle of an infinite turning radius. *)
Theorem straight_path_steering (injected : list string)
    (state : TickState) (waypoints : list point) (update_pids : bool)
    (self : t)
    (Hlog : logger_bound injected)
    (Hwf : well_configured self)
    (Hne : waypoints <> [])
    (Hstraight : straight_ahead waypoints)
    (Hdistinct : PathSpec.distinct_steps (0, 0) (map swap_xy waypoints))
    (Hfast : ~ target_kmh self waypoints < 3.5) :
  exists (self' : t) (out : VehicleControl),
    step injected state waypoints update_pids self = (self', Ok out)
    /\ steer out
       = turning_radius_to_steering_angle (_kinematic_bicycle self) PInf.
Proof.
  destruct (VehicleFacts.well_configured_divides self Hwf) as [Hs Hb].
  assert (Hne' : map swap_xy waypoints <> [])
    by (destruct waypoints; [now elim Hne | discriminate]).
  destruct (PathFacts.walk_distinct (map swap_xy waypoints) 5.0 0 (0, 0)
              (0, 0) None Hdistinct (or_introl Hne')) as [[x y] Hxy].
  assert (Hx : x = 0).
  { apply (walk_on_axis _ _ _ _ _ (x, y) _) in Hxy; try reflexivity;
      [exact Hxy | ].
    unfold straight_ahead in Hstraight. rewrite Forall_map.
    exact Hstraight. }
  subst x. do 2 eexists. split.
  - apply (VehicleFacts.step_driving _ _ _ _ _ _ _ _ _ _ Hlog Hxy Hfast
             (PidFacts.step_defined _ _ _ Hs)
             (PidFacts.step_defined _ _ _ Hb)).
  - cbn [steer]. unfold steering_target.
    rewrite turning_radius_zero.
    destruct (Rlt_dec 0 0.0) as [H | _]; [lra | reflexivity].
Qed.

Lemma straight_path_steering_witness :
  logger_bound with_logger
  /\ well_configured fresh_controller
  /\ [(3, 0); (6, 0)] <> []
  /\ straight_ahead [(3, 0); (6, 0)]
  /\ PathSpec.distinct_steps (0, 0) (map swap_xy [(3, 0); (6, 0)])
  /\ ~ target_kmh fresh_controller [(3, 0); (6, 0)] < 3.5
  /\ exists (self' : t) (out : VehicleControl),
       step with_logger {| speed := 1 |} [(3, 0); (6, 0)] true
         fresh_controller = (self', Ok out)
       /\ steer out
          = turning_radius_to_steering_angle
              (_kinematic_bicycle fresh_controller) PInf.
Proof.
  assert (Hwf : well_configured fresh_controller)
    by (apply VehicleFacts.init_well_configured; [discriminate | lra]).
  assert (Hne : [(3, 0); (6, 0)] <> ([] : list point)) by discriminate.
  assert (Hstraight : straight_ahead [(3, 0); (6, 0)])
    by (repeat constructor).
  assert (Hdistinct : PathSpec.distinct_steps (0, 0)
                        (map swap_xy [(3, 0); (6, 0)])).
  { cbn [PathSpec.distinct_steps map swap_xy fst snd].
    repeat split; intros H; injection H as H; lra. }
  assert (Hfast : ~ target_kmh fresh_controller [(3, 0); (6, 0)] < 3.5).
  { unfold target_kmh, target_speed_of, mean.
    cbn [map swap_xy fst snd removelast tl combine firstn fold_right
         List.length _waypoint_step_gap _dt fresh_controller init INR].
    unfold swap_xy, psub. cbn [fst snd].
    rewrite (InterpolationFacts.norm_eq (0 - 0, 0 - 3) 3);
      [ | lra | cbn [fst snd]; lra ].
    rewrite (InterpolationFacts.norm_eq (0 - 0, 3 - 6) 3);
      [ | lra | cbn [fst snd]; lra ].
    lra. }
  split; [exact VehicleFacts.with_logger_bound | ].
  split; [exact Hwf | ]. split; [exact Hne | ].
  split; [exact Hstraight | ]. split; [exact Hdistinct | ].
  split; [exact Hfast | ].
  exact (straight_path_steering with_logger {| speed := 1 |}
           [(3, 0); (6, 0)] true fresh_controller
           VehicleFacts.with_logger_bound Hwf Hne Hstraight Hdistinct
           Hfast).
Defined.

Lemma norm_flipped (a b : point) :
  norm (psub (flip a) (flip b)) = norm (psub a b).
Proof.
  unfold norm, psub, flip. cbn [fst snd]. f_equal. ring.
Qed.

Lemma flip_origin : flip (0, 0) = (0, 0).
Proof. unfold flip. cbn [fst snd]. f_equal. ring. Qed.

Lemma swap_mirror (waypoints : list point) :
  map swap_xy (map mirror waypoints) = map flip (map swap_xy waypoints).
Proof. rewrite !map_map. reflexivity. Qed.

Lemma offset_flipped (cur_pos direction : point) (dist along : R) :
  offset_along (flip cur_pos) (flip direction) dist along
  = option_map flip (offset_along cur_pos direction dist along).
Proof.
  unfold offset_along.
  destruct (Req_dec_T dist 0) as [_ | _]; [reflexivity | ].
  cbn [option_map]. unfold flip. cbn [fst snd].
  apply GeometryFacts.some_point_eq; unfold Rdiv; ring.
Qed.

Lemma psub_flipped (a b : point) : psub (flip a) (flip b) = flip (psub a b).
Proof.
  unfold psub, flip. cbn [fst snd]. f_equal. ring.
Qed.

(** The interpolator commutes with the reflection. *)
Lemma walk_flipped (waypoints : list point) (meters : R) :
  forall (total_dist : R) (prev_pos cur_pos : point) (dist : option R),
    walk (map flip waypoints) meters total_dist (flip prev_pos)
      (flip cur_pos) dist
    = match walk waypoints meters total_dist prev_pos cur_pos dist with
      | Ok xy => Ok (option_map flip xy)
      | Raise e => Raise e
      end.
Proof.
  induction waypoints as [ | waypoint rest IH];
    intros total_dist prev_pos cur_pos dist.
  - cbn [map walk]. destruct dist as [d | ]; [ | reflexivity].
    rewrite psub_flipped, offset_flipped. reflexivity.
  - cbn [map]. rewrite !InterpolationFacts.walk_cons.
    rewrite norm_flipped.
    destruct (Rge_dec _ meters) as [_ | _].
    + rewrite psub_flipped, offset_flipped. reflexivity.
    + apply IH.
Qed.

Lemma interpolate_flipped (waypoints : list point) (x y : R) :
  _interpolate_waypoint_n_meters_ahead waypoints 5.0 = Ok (Some (x, y)) ->
  _interpolate_waypoint_n_meters_ahead (map flip waypoints) 5.0
  = Ok (Some (- x, y)).
Proof.
  unfold _interpolate_waypoint_n_meters_ahead. intros H.
  rewrite <- flip_origin at 1 2. rewrite walk_flipped, H. reflexivity.
Qed.

Lemma deltas_flipped (waypoints : list point) :
  forall a : point,
    map (fun p => norm (psub (fst p) (snd p)))
        (combine (removelast (flip a :: map flip waypoints))
           (map flip waypoints))
    = map (fun p => norm (psub (fst p) (snd p)))
          (combine (removelast (a :: waypoints)) waypoints).
Proof.
  induction waypoints as [ | waypoint rest IH]; intros a; [reflexivity | ].
  cbn [map].
  change (removelast (flip a :: flip waypoint :: map flip rest))
    with (flip a :: removelast (flip waypoint :: map flip rest)).
  change (removelast (a :: waypoint :: rest))
    with (a :: removelast (waypoint :: rest)).
  cbn [combine map fst snd]. rewrite norm_flipped. f_equal. apply IH.
Qed.

Lemma target_speed_flipped (self : t) (waypoints : list point) :
  target_speed_of self (map flip waypoints) = target_speed_of self waypoints.
Proof.
  unfold target_speed_of. cbn [tl].
  rewrite <- flip_origin at 1. rewrite deltas_flipped. reflexivity.
Qed.

Lemma xopp_involutive (a : xreal) : xopp (xopp a) = a.
Proof. destruct a; cbn [xopp]; try reflexivity. f_equal. ring. Qed.

Lemma turning_radius_flipped (x y : R) :
  _turning_radius_to (- x) y = _turning_radius_to x y.
Proof.
  unfold _turning_radius_to.
  destruct (Req_dec_T x 0) as [Hx | Hx];
    destruct (Req_dec_T (- x) 0) as [Hx' | Hx']; try lra;
    [reflexivity | ].
  rewrite Rabs_Ropp. do 2 f_equal. ring.
Qed.

(** X29: the call is symmetric in the lateral direction.  When the
    look-ahead point of the path lies off the forward axis, the call with
    every waypoint reflected to the other side leaves the controller in
    the same state and has the same outcome, with the same throttle and
    brake and the opposite steering angle. *)
Theorem reflected_path_reverses_steering (injected : list string)
    (state : TickState) (waypoints : list point) (update_pids : bool)
    (self : t) (x y : R)
    (Hxy : _interpolate_waypoint_n_meters_ahead (map swap_xy waypoints) 5.0
           = Ok (Some (x, y)))
    (Hx : x <> 0) :
  step injected state (map mirror waypoints) update_pids self
  = (fst (step injected state waypoints update_pids self),
     match snd (step injected state waypoints update_pids self) with
     | Ok out => Ok (reverse_steer out)
     | Raise e => Raise e
     end).
Proof.
  unfold step, bind, get, lookup_global, call, speed_control_step,
    brake_control_step, zoom, ret.
  rewrite swap_mirror, target_speed_flipped.
  rewrite (interpolate_flipped _ _ _ Hxy), Hxy.
  rewrite turning_radius_flipped.
  destruct (resolves injected "logger"); [ | reflexivity].
  destruct (Rlt_dec _ 3.5) as [Hslow | Hfast].
  - destruct (PidController.step (speed state) update_pids _)
      as [pid [b | e]]; [ | reflexivity].
    cbn [fst snd]. unfold reverse_steer. cbn [throttle steer brake xopp].
    do 2 f_equal. f_equal. f_equal. lra.
  - destruct (PidController.step _ update_pids (_speed_control self))
      as [pid_s [t_out | e]]; [ | reflexivity].
    cbn [_brake_control set_speed_control].
    destruct (PidController.step _ update_pids (_brake_control self))
      as [pid_b [b_out | e]]; [ | reflexivity].
    cbn [fst snd]. unfold reverse_steer. cbn [throttle steer brake].
    do 2 f_equal. f_equal.
    destruct (Rlt_dec x 0.0) as [Hneg | Hpos];
      destruct (Rlt_dec (- x) 0.0) as [Hneg' | Hpos']; try lra.
    + symmetry. apply xopp_involutive.
    + reflexivity.
Qed.

Lemma reflected_path_reverses_steering_witness :
  _interpolate_waypoint_n_meters_ahead (map swap_xy [(0, 3); (0, 1)]) 5.0
  = Ok (Some (1, 0))
  /\ 1 <> 0
  /\ step with_logger {| speed := 0 |} (map mirror [(0, 3); (0, 1)]) true
       fresh_controller
     = (fst (step with_logger {| speed := 0 |} [(0, 3); (0, 1)] true
               fresh_controller),
        match
          snd (step with_logger {| speed := 0 |} [(0, 3); (0, 1)] true
                 fresh_controller)
        with
        | Ok out => Ok (reverse_steer out)
        | Raise e => Raise e
        end).
Proof.
  assert (Hx : 1 <> 0) by lra.
  split; [exact VehicleFacts.turning_interpolation | ].
  split; [exact Hx | ].
  exact (reflected_path_reverses_steering with_logger {| speed := 0 |}
           [(0, 3); (0, 1)] true fresh_controller 1 0
           VehicleFacts.turning_interpolation Hx).
Defined.

End DrivingFacts.
